(** * Super-Zhot: the tournament relation and the circular diagram

    A shallow embedding of [super-zhot.py].  The combinatorial half
    ([Move], [Game]) is modelled with executable definitions over [nat],
    [list] and [string].  The geometric half ([Point], [Diagram]) is modelled
    over the real numbers: a Python [float] is read as the real number it
    denotes, and [round], [%], [math.sin], [math.cos] and [math.radians] are
    their exact counterparts.  The one product whose rounding turns on the
    last bit, the width of a legend, is computed in binary64 arithmetic. *)

From Stdlib Require Import Floats.
From Stdlib Require Import String Ascii Bool Arith PeanoNat ZArith Lia ZifyNat List.
From Stdlib Require Import Permutation.
From Stdlib Require Import Reals Lra.
From Stdlib Require Import DecimalString.
Import ListNotations.

Set Implicit Arguments.
Open Scope string_scope.
Open Scope list_scope.
Open Scope nat_scope.

(** ** Python primitives *)

Module Py.

(** The exceptions that the modelled code can raise. *)
Inductive exn : Type :=
| IndexError
| ZeroDivisionError
| NotOddError (msg : string)
| InsufficientMovesError (msg : string)
| SystemExit.

Inductive result (A : Type) : Type :=
| Ok (a : A)
| Raise (e : exn).
Arguments Ok {A} a.
Arguments Raise {A} e.

Definition bind {A B} (m : result A) (f : A -> result B) : result B :=
  match m with
  | Ok a => f a
  | Raise e => Raise e
  end.

(** [range(start, stop, step)] for a positive [step]. *)
Definition range (start stop step : nat) : list nat :=
  map (fun k => start + k * step) (seq 0 ((stop - start + step - 1) / step)).

(** [enumerate(l)] *)
Definition enumerate {A} (l : list A) : list (nat * A) :=
  combine (seq 0 (length l)) l.

(** [l[i]] for a non-negative index. *)
Definition getitem {A} (l : list A) (i : nat) : result A :=
  match nth_error l i with
  | Some a => Ok a
  | None => Raise IndexError
  end.

(** [l.pop(0)]: the first element and the list that remains. *)
Definition pop0 {A} (l : list A) : result (A * list A) :=
  match l with
  | [] => Raise IndexError
  | a :: l' => Ok (a, l')
  end.

(** A [dict] keeps its keys in insertion order; assigning to a key that is
    already present replaces the value where the key stands. *)
Definition dict : Type := list (string * string).

Fixpoint setitem (d : dict) (k v : string) : dict :=
  match d with
  | [] => [(k, v)]
  | (k', v') :: d' =>
      if String.eqb k' k then (k', v) :: d' else (k', v') :: setitem d' k v
  end.

Definition keys (d : dict) : list string := map fst d.

(** [k in d] *)
Definition contains (d : dict) (k : string) : bool :=
  existsb (String.eqb k) (keys d).

(** [str.strip()]: whitespace is what [str.isspace] accepts among the
    characters below 128. *)
Definition isspace (c : ascii) : bool :=
  let n := nat_of_ascii c in
  ((9 <=? n) && (n <=? 13)) || ((28 <=? n) && (n <=? 32)).

Fixpoint lstrip (s : list ascii) : list ascii :=
  match s with
  | [] => []
  | c :: s' => if isspace c then lstrip s' else s
  end.

Definition strip (s : string) : string :=
  string_of_list_ascii
    (rev (lstrip (rev (lstrip (list_ascii_of_string s))))).

(** [len(s)]: a [str] is held as its UTF-8 encoding, and [len] counts its
    characters, that is, the bytes that do not continue a character (the
    bytes outside 128-191). *)
Definition len (s : string) : nat :=
  length
    (filter (fun c => let n := nat_of_ascii c in
                      negb ((128 <=? n) && (n <=? 191)))
            (list_ascii_of_string s)).

(** [sep.join(l)] *)
Fixpoint join (sep : string) (l : list string) : string :=
  match l with
  | [] => EmptyString
  | [s] => s
  | s :: l' => (s ++ sep ++ join sep l')%string
  end.

(** Monadic map, left to right, stopping at the first exception. *)
Fixpoint mapM {A B} (f : A -> result B) (l : list A) : result (list B) :=
  match l with
  | [] => Ok []
  | a :: l' =>
      bind (f a) (fun b => bind (mapM f l') (fun bs => Ok (b :: bs)))
  end.

End Py.

Import Py.

Notation "x <- m ;; k" := (Py.bind m (fun x => k))
  (at level 61, m at next level, right associativity).
Notation "' pat <- m ;; k" := (Py.bind m (fun x => match x with pat => k end))
  (at level 61, pat pattern, m at next level, right associativity).

(** ** The tournament relation: [Move] and [Game] *)

Record Move : Type := mkMove {
  move : string;
  beats : dict;
  num : nat;
  beats_num : list nat
}.

Definition generic_verb : string := "beats".

(** The body of the loop [for offset in range(1, total, 2)] of
    [Move.__init__].  The state is the unread part of [info] and the
    dictionary built so far. *)
Fixpoint beats_loop (offsets : list nat) (number total : nat)
    (move_names : list string) (info : list string) (acc : dict)
  : result (list string * dict) :=
  match offsets with
  | [] => Ok (info, acc)
  | offset :: rest =>
      (* try: verb = info.pop(0).strip()  except: verb = generic_verb *)
      let '(verb, info') :=
        match pop0 info with
        | Ok (v, info') => (strip v, info')
        | Raise _ => (generic_verb, info)
        end in
      loser <- getitem move_names ((number + offset) mod total) ;;
      beats_loop rest number total move_names info' (setitem acc loser verb)
  end.

(** [Move.__init__(self, number, info, move_names)] *)
Definition Move_init (number : nat) (info : list string)
    (move_names : list string) : result Move :=
  '(name, info1) <- pop0 info ;;
  let total := length move_names in
  '(_, d) <- beats_loop (range 1 total 2) number total move_names info1 [] ;;
  Ok {| move := name;
        beats := d;
        num := number;
        beats_num :=
          map (fun i => (i + number) mod total)
              (filter (fun i => negb (i mod 2 =? 0)) (range 0 total 1)) |}.

(** [Move.result_vs(self, enemy_move)]; a missing key is a [KeyError], which
    the model reports as [None]. *)
Definition result_vs (m : Move) (enemy_move : string) : option string :=
  match find (fun kv => String.eqb (fst kv) enemy_move) (beats m) with
  | Some (_, verb) =>
      Some (join " " [move m; verb; enemy_move] ++ ".")%string
  | None => None
  end.

Record Score : Type := mkScore { human : nat; ai : nat }.

Record Game : Type := mkGame {
  move_objs : list Move;
  score : Score;
  rounds : nat;
  move_names_str : string;
  rules : string
}.

(** [Game.complete_initialisation(self, move_names)] *)
Definition complete_initialisation (objs : list Move)
    (move_names : list string) : Game :=
  let lines :=
    flat_map (fun obj =>
      map (fun kv => (join " " [move obj; snd kv; fst kv] ++ "." ++ String "010" "")%string)
          (beats obj)) objs in
  {| move_objs := objs;
     score := mkScore 0 0;
     rounds := 0;
     move_names_str := join ", " move_names;
     rules := (String "010" "Rules of the game:" ++ String "010" ""
               ++ String.concat "" lines
               ++ String "010" "Make one of these moves, or use ‘score’, ‘rounds’, ‘help’ or ‘exit’.")%string |}.

(** The checks made while the file is open.  [rows] is what [csv.reader]
    yields for the file. *)
Definition read_moves (rows : list (list string)) : result (list (list string)) :=
  let moves_from_file := filter (fun row => negb (length row =? 0)) rows in
  if length moves_from_file mod 2 =? 0 then
    Raise (NotOddError "For a fair game, there must be an odd number of moves.")
  else if length moves_from_file <? 3 then
    Raise (InsufficientMovesError "Multiple moves are necessary.")
  else Ok moves_from_file.

(** [Game.__init__(self, filename)], as a function of the rows of the file.
    The result is what has been printed and either the game or the
    exception that ends the construction. *)
Definition Game_init (filename : string) (rows : list (list string))
  : list string * result Game :=
  match read_moves rows with
  | Raise (NotOddError msg) | Raise (InsufficientMovesError msg) =>
      (["There has been a problem opening your CSV file."; msg], Raise SystemExit)
  | Raise e => ([], Raise e)
  | Ok moves_from_file =>
      match
        (move_names <- mapM (fun item => getitem item 0) moves_from_file ;;
         objs <- mapM (fun im => Move_init (fst im) (snd im) move_names)
                      (enumerate moves_from_file) ;;
         Ok (complete_initialisation objs move_names))
      with
      | Ok g => ([("Starting game with rules from " ++ filename ++ ".")%string], Ok g)
      | Raise e => ([], Raise e)
      end
  end.

(** [DefaultGame.__init__(self)] *)
Definition DefaultGame_init : list string * result Game :=
  let move_names := ["Scissors"; "Paper"; "Rock"]%string in
  match
    (scissors <- Move_init 0 ["Scissors"; "cuts"]%string move_names ;;
     paper <- Move_init 1 ["Paper"; "wraps"]%string move_names ;;
     rock <- Move_init 2 ["Rock"; "blunts"]%string move_names ;;
     Ok (complete_initialisation [scissors; paper; rock] move_names))
  with
  | Ok g => (["Starting game with default rules."%string], Ok g)
  | Raise e => ([], Raise e)
  end.

(** ** Numbers

    [float] values are read as real numbers.  [round] rounds to the nearest
    integer and, half way between two integers, to the even one. *)

Module Num.

Definition Reqb (a b : R) : bool := if Req_dec_T a b then true else false.
Definition Rltb (a b : R) : bool := if Rlt_dec a b then true else false.

(** [round(x)] (also [int(numpy.round(x))]) *)
Definition round (x : R) : Z :=
  let f := Int_part x in
  let d := (x - IZR f)%R in
  if Rltb d (1 / 2) then f
  else if Rltb (1 / 2) d then (f + 1)%Z
  else if Z.even f then f else (f + 1)%Z.

(** [round(x, ndigits)] *)
Definition round_to (x : R) (ndigits : nat) : R :=
  (IZR (round (x * 10 ^ ndigits)) / 10 ^ ndigits)%R.

(** [a % b] on floats, for a positive [b]. *)
Definition fmod (a b : R) : R := (a - IZR (Int_part (a / b)) * b)%R.

(** [math.radians(deg)] *)
Definition radians (deg : R) : R := (deg * (PI / 180))%R.

(** [matplotlib.mlab.frange(xini, xfin, delta)], a library function, with
    its default [closed=1]: the number of values is
    [int(numpy.round((xfin - xini) / delta)) + 1] and the values are
    [numpy.arange(npts) * delta + xini].  The values are exact here; in
    binary64 the last of them can miss [xfin] by one bit (with 55 moves it is
    360.00000000000006, which the fourth-quadrant formula places at the west
    point and not at north).  The layouts given below point by point, those
    of three and of four moves, have every angle exact. *)
Definition frange (xini xfin delta : R) : list R :=
  let npts := (round ((xfin - xini) / delta) + 1)%Z in
  map (fun k => (INR k * delta + xini)%R) (seq 0 (Z.to_nat npts)).

End Num.

Import Num.

(** ** Doubles

    The binary64 numbers themselves, for the arithmetic whose rounding the
    real numbers do not share. *)

Module Double.

(** [float(z)] for an [int] from 0 to [2^63 - 1]. *)
Definition of_int (z : Z) : PrimFloat.float :=
  PrimFloat.of_uint63 (Uint63.of_Z z).

(** A finite double as a fraction, the denominator a power of two; zero is
    0/1.  An infinity or a NaN has no such fraction: the products taken
    below, of numbers up to 1.9, 500 and 1, are never one. *)
Definition fraction (f : PrimFloat.float) : Z * Z :=
  match Prim2SF f with
  | S754_finite s m e =>
      let M := if s then Z.neg m else Z.pos m in
      if (0 <=? e)%Z then (M * 2 ^ e, 1)%Z else (M, 2 ^ (- e))%Z
  | _ => (0, 1)%Z
  end.

(** The real number that a finite double is. *)
Definition value (f : PrimFloat.float) : R :=
  let '(p, q) := fraction f in (IZR p / IZR q)%R.

End Double.

(** [rounded(num)] *)
Definition DEC_PLACES : nat := 2.
Definition rounded (num : R) : R := round_to num DEC_PLACES.

(** ** Points *)

Record Point : Type := mkPoint { x : R; y : R }.

(** [Point.__init__(self, x, y)]; [dict] and [tuple] hold the same two
    numbers as the attributes [x] and [y]. *)
Definition Point_init (x0 y0 : R) : Point :=
  {| x := rounded x0; y := rounded y0 |}.

(** ** The diagram *)

Definition FULL_CIRCLE : Z := 360.
Definition DIAGRAM_SIZE : Z := 1000.

(** [px(v)] stands for the text [str(v) + "px"]. *)
Inductive length_px : Type := px (v : R).

Definition dup {A} (single : A) : A * A := (single, single).

(** What [svgwrite] is asked to draw, with the keyword arguments given. *)
Inductive element : Type :=
| rect (insert : R * R) (size : length_px * length_px)
       (stroke_width : string) (stroke fill : string)
| circle (center : length_px * length_px) (r : length_px)
         (stroke_width : length_px) (stroke fill : string)
| line (start end_ : Point) (stroke : string)
| style (font_size : R)
| text (content : string) (insert : R * R) (text_anchor : string)
       (textLength : length_px) (lengthAdjust : string).

(** What is printed on the way. *)
Inductive output : Type :=
| print_str (s : string)
| print_move (m : Move).

Section Layout.

(** [len(move_objs)] *)
Variable n : nat.

Definition DIAGRAM_RADIUS : Z := round (IZR DIAGRAM_SIZE / 2).
Definition CIRCLE_RADIUS : Z := round (IZR DIAGRAM_RADIUS / INR n).
Definition NORTH : R := 0.
Definition EAST : R := 90.
Definition SOUTH : R := 180.
Definition WEST : R := 270.
Definition hypotenuse : Z := (DIAGRAM_RADIUS - CIRCLE_RADIUS)%Z.

(** The two numbers handed to [Point] for one angle: the body of the loop
    [for angle in angles] before the point is built. *)
Definition point_args (angle : R) : R * R :=
  if Reqb angle NORTH || Reqb angle (IZR FULL_CIRCLE) then
    (IZR DIAGRAM_RADIUS, IZR CIRCLE_RADIUS)
  else if Reqb angle EAST then
    (IZR (DIAGRAM_SIZE - CIRCLE_RADIUS), IZR DIAGRAM_RADIUS)
  else if Reqb angle SOUTH then
    (IZR DIAGRAM_RADIUS, IZR (DIAGRAM_SIZE - CIRCLE_RADIUS))
  else if Reqb angle WEST then
    (IZR CIRCLE_RADIUS, IZR DIAGRAM_RADIUS)
  else
    let radians := radians (fmod angle EAST) in
    let opposite := (IZR hypotenuse * sin radians)%R in
    let adjacent := (IZR hypotenuse * cos radians)%R in
    if Rltb angle EAST then
      (IZR DIAGRAM_RADIUS + opposite, IZR DIAGRAM_RADIUS - adjacent)%R
    else if Rltb angle SOUTH then
      (IZR DIAGRAM_RADIUS + adjacent, IZR DIAGRAM_RADIUS + opposite)%R
    else if Rltb angle WEST then
      (IZR DIAGRAM_RADIUS - opposite, IZR DIAGRAM_RADIUS + adjacent)%R
    else
      (IZR DIAGRAM_RADIUS - adjacent, IZR DIAGRAM_RADIUS - opposite)%R.

Definition move_point (angle : R) : Point :=
  let '(a, b) := point_args angle in Point_init a b.

(** [angles]; dividing by [len(move_objs) = 0] raises. *)
Definition angles : result (list R) :=
  if n =? 0 then Raise ZeroDivisionError
  else
    let angle_slice := (IZR FULL_CIRCLE / INR n)%R in
    Ok (frange angle_slice (IZR FULL_CIRCLE) angle_slice).

(** [move_points] *)
Definition layout : result (list Point) :=
  a <- angles ;; Ok (map move_point a).

Definition text_size : R := (IZR CIRCLE_RADIUS / 3)%R.
Definition max_text_len : nat := 12.

End Layout.

(** The scene under construction: what has been printed, the style
    definitions and the shapes added so far, oldest first. *)
Record scene : Type := mkScene {
  printed : list output;
  defs : list element;
  elements : list element
}.

Definition say (o : output) (sc : scene) : scene :=
  {| printed := printed sc ++ [o]; defs := defs sc; elements := elements sc |}.
Definition add (e : element) (sc : scene) : scene :=
  {| printed := printed sc; defs := defs sc; elements := elements sc ++ [e] |}.
Definition add_def (e : element) (sc : scene) : scene :=
  {| printed := printed sc; defs := defs sc ++ [e]; elements := elements sc |}.

Section Assemble.

Variable move_objs : list Move.
Variable move_points : list Point.

Let n := length move_objs.

(** [for target in move_objs[i].beats_num: ...] *)
Fixpoint draw_lines (point : Point) (targets : list nat) (sc : scene)
  : scene * result unit :=
  match targets with
  | [] => (sc, Ok tt)
  | target :: rest =>
      match getitem move_points target with
      | Raise e => (sc, Raise e)
      | Ok q => draw_lines point rest (add (line point q "black") sc)
      end
  end.

(** The legend of one move: the width its name is fitted to and where the
    text is put.  The width is the binary64 product, rounded. *)
#[warnings="-inexact-float"]
Definition text_length_px (name : string) : R :=
  let text_length :=
    if max_text_len <? len name then max_text_len else len name in
  let text_length :=
    (Double.of_int (Z.of_nat text_length)
     / Double.of_int (Z.of_nat max_text_len))%float in
  rounded
    (Double.value (1.9 * Double.of_int (CIRCLE_RADIUS n) * text_length)%float).

Definition downshifted (point : Point) : R * R :=
  (rounded (x point), rounded (y point + text_size n / 4)).

(** One turn of [for i, point in enumerate(move_points)]. *)
Definition draw_move (i : nat) (point : Point) (sc : scene)
  : scene * result unit :=
  match getitem move_objs i with
  | Raise e => (sc, Raise e)
  | Ok m =>
      let sc := say (print_move m) sc in
      let point_px := (px (rounded (x point)), px (rounded (y point))) in
      match draw_lines point (beats_num m) sc with
      | (sc, Raise e) => (sc, Raise e)
      | (sc, Ok _) =>
          let sc :=
            add (circle point_px (px (IZR (CIRCLE_RADIUS n))) (px 2)
                        "grey" "white") sc in
          let sc :=
            add (text (move m) (downshifted point) "middle"
                      (px (text_length_px (move m))) "spacingAndGlyphs") sc in
          (sc, Ok tt)
      end
  end.

Fixpoint draw_moves (ips : list (nat * Point)) (sc : scene)
  : scene * result unit :=
  match ips with
  | [] => (sc, Ok tt)
  | (i, point) :: rest =>
      match draw_move i point sc with
      | (sc, Raise e) => (sc, Raise e)
      | (sc, Ok _) => draw_moves rest sc
      end
  end.

(** The check on the number of points: it prints and nothing more. *)
Definition check_count (sc : scene) : scene :=
  if length move_objs <? length move_points then
    say (print_str
      "Slight error: I have data for too many circles in the diagram.") sc
  else sc.

(** [Diagram.__init__] from the check on the number of points on. *)
Definition assemble : scene * result unit :=
  let sc := check_count (mkScene [] [] []) in
  let sc :=
    add (rect (0, 0)%R (dup (px (IZR DIAGRAM_SIZE))) "10" "grey" "darkgrey")
        sc in
  let sc :=
    add (circle (dup (px (IZR DIAGRAM_RADIUS))) (px (IZR DIAGRAM_RADIUS))
                (px 1) "grey" "darkgrey") sc in
  let sc := add_def (style (text_size n)) sc in
  draw_moves (enumerate move_points) sc.

End Assemble.

(** [Diagram.__init__(self, move_objs)]: the points, then the scene. *)
Record Diagram : Type := mkDiagram {
  diagram : scene;
  diagram_points : list Point
}.

Definition Diagram_init (move_objs : list Move) : scene * result Diagram :=
  match layout (length move_objs) with
  | Raise e => (mkScene [] [] [], Raise e)
  | Ok move_points =>
      match assemble move_objs move_points with
      | (sc, Raise e) => (sc, Raise e)
      | (sc, Ok _) => (sc, Ok (mkDiagram sc move_points))
      end
  end.

(** The moves of the game with default rules. *)
Definition default_moves : list Move :=
  match snd DefaultGame_init with
  | Ok g => move_objs g
  | Raise _ => []
  end.

(** ** The game at the terminal: [Score], [Round] and [main] *)

(** [str(n)] for a natural number. *)
Definition str_nat (n : nat) : string :=
  NilEmpty.string_of_uint (Nat.to_uint n).

(** [str.casefold()], for the characters below 128: the capital letters
    become small. *)
Definition casefold_char (c : ascii) : ascii :=
  let n := nat_of_ascii c in
  if (65 <=? n) && (n <=? 90) then ascii_of_nat (n + 32) else c.

Fixpoint casefold (s : string) : string :=
  match s with
  | EmptyString => EmptyString
  | String c s' => String (casefold_char c) (casefold s')
  end.

(** [sub in s] for two strings. *)
Fixpoint str_in (sub s : string) : bool :=
  if String.prefix sub s then true
  else match s with
       | EmptyString => false
       | String _ s' => str_in sub s'
       end.

(** [s in (w1, w2, ...)] for a tuple of strings. *)
Definition one_of (s : string) (words : list string) : bool :=
  existsb (String.eqb s) words.

(** [random.choice(seq)], with the number [r] that is drawn made explicit. *)
Definition choice {A} (r : nat) (l : list A) : result A :=
  match l with
  | [] => Raise IndexError
  | _ => getitem l (r mod length l)
  end.

(** What stops the game, beyond the exceptions of the catalog. *)
Inductive raised : Type :=
| builtin (e : exn)
| AttributeError (attr : string)
| KeyError (key : string)
| Exception (msg : string).

Inductive run (A : Type) : Type :=
| Done (a : A)
| Stopped (e : raised).
Arguments Done {A} a.
Arguments Stopped {A} e.

(** What the game prints. *)
Inductive console : Type :=
| print_line (s : string)
| print_prompt (s : string)
| print_drawing (o : output)
| print_points (pts : list Point).

(** [Score.upshot(self)] *)
Definition upshot (s : Score) : string :=
  if human s <? ai s then "I win."
  else if ai s <? human s then "You win."
  else "We have tied.".

(** [Score.__str__(self)] *)
Definition Score_str (s : Score) : string :=
  ("You have scored " ++ str_nat (human s) ++ " and I have scored "
   ++ str_nat (ai s) ++ ".")%string.

(** [Move.remarks] *)
Definition remarks_victorious : list string :=
  ["Heheh."; "The round is mine!"; "I win."; "You loser."].
Definition remarks_conceding : list string :=
  ["OK."; "Drat!"; "You’ve won that one."; "Dammit."; "Argh!"].

(** What [get_human_move] returns: a move object of the game, known by its
    place in [game.move_objs], or an [AdminMove]. *)
Inductive played : Type :=
| a_Move (i : nat) (m : Move)
| an_AdminMove (quitting : bool).

(** [for candidate in game.move_objs: ... else: ...] *)
Fixpoint first_candidate (stdin : string) (candidates : list (nat * Move))
  : played :=
  match candidates with
  | [] => an_AdminMove false
  | (i, candidate) :: rest =>
      if str_in (casefold stdin) (casefold (move candidate))
      then a_Move i candidate
      else first_candidate stdin rest
  end.

(** [Round.get_human_move(game)]; [typed] is the line that [input()]
    reads. *)
Definition get_human_move (game : Game) (typed : string)
  : list console * run played :=
  let stdin := strip typed in
  if String.eqb stdin "" || one_of stdin ["exit"; "quit"] then
    ([], Done (an_AdminMove true))
  else if one_of stdin ["score"; "points"] then
    ([print_line (Score_str (score game))], Done (an_AdminMove false))
  else if one_of stdin ["rounds"; "length"] then
    ([print_line (str_nat (rounds game)
                  ++ " rounds have been played so far.")%string],
     Done (an_AdminMove false))
  else if one_of stdin ["help"; "moves"; "rules"; "?"] then
    ([print_line (rules game)], Done (an_AdminMove false))
  else if one_of stdin ["dia"; "diagram"] then
    match Diagram_init (move_objs game) with
    | (sc, Ok d) =>
        (map print_drawing (printed sc) ++ [print_points (diagram_points d)],
         Done (an_AdminMove false))
    | (sc, Raise e) => (map print_drawing (printed sc), Stopped (builtin e))
    end
  else ([], Done (first_candidate stdin (enumerate (move_objs game)))).

Record Round : Type := mkRound {
  moves : string;
  outcome : string;
  round_score : Score
}.

Definition played_one_more (g : Game) : Game :=
  {| move_objs := move_objs g; score := score g; rounds := rounds g + 1;
     move_names_str := move_names_str g; rules := rules g |}.

(** The three ways a round between two moves can go; [r] is the number
    drawn to pick the remark. *)
Definition settle (i : nat) (human_move : Move) (j : nat) (ai_move : Move)
    (r : nat) : run (string * Score) :=
  if i =? j then Done ("Stalemate.", mkScore 0 0)
  else if contains (beats ai_move) (move human_move) then
    match result_vs ai_move (move human_move) with
    | None => Stopped (KeyError (move human_move))
    | Some sentence =>
        match choice r remarks_victorious with
        | Raise e => Stopped (builtin e)
        | Ok remark => Done ((sentence ++ " " ++ remark)%string, mkScore 0 1)
        end
    end
  else if contains (beats human_move) (move ai_move) then
    match result_vs human_move (move ai_move) with
    | None => Stopped (KeyError (move ai_move))
    | Some sentence =>
        match choice r remarks_conceding with
        | Raise e => Stopped (builtin e)
        | Ok remark => Done ((sentence ++ " " ++ remark)%string, mkScore 1 0)
        end
    end
  else Stopped (Exception "Invalid move").

(** [Round.__init__(self, game)]: what is typed and the two numbers drawn
    are given; the result is what is printed, the game as the round leaves
    it, and the round or what stopped it. *)
Definition Round_init (game : Game) (typed : string) (r_ai r_remark : nat)
  : list console * (Game * run Round) :=
  let out :=
    [print_line ("Options: " ++ move_names_str game ++ ".")%string;
     print_prompt "What is your move?"] in
  match get_human_move game typed with
  | (out1, Stopped e) => (out ++ out1, (game, Stopped e))
  | (out1, Done human_) =>
      match choice r_ai (enumerate (move_objs game)) with
      | Raise e => (out ++ out1, (game, Stopped (builtin e)))
      | Ok (j, ai_) =>
          match human_ with
          | a_Move i h =>
              if negb (String.eqb (move h) "") then
                let said :=
                  ("You play " ++ move h ++ " and I play " ++ move ai_
                   ++ ". ")%string in
                match settle i h j ai_ r_remark with
                | Stopped e => (out ++ out1, (game, Stopped e))
                | Done (result, sc) =>
                    (out ++ out1,
                     (played_one_more game,
                      Done (mkRound said (result ++ String "010" "")%string sc)))
                end
              else (out ++ out1, (game, Stopped (AttributeError "quitting")))
          | an_AdminMove quitting =>
              if quitting then
                (out ++ out1
                 ++ [print_line "Exiting game.";
                     print_line (Score_str (score game) ++ " "
                                 ++ str_nat (rounds game)
                                 ++ " rounds played.")%string;
                     print_line (upshot (score game))],
                 (game, Stopped (builtin SystemExit)))
              else (out ++ out1, (game, Done (mkRound "" "" (mkScore 0 0))))
          end
      end
  end.

(** One turn of the loop of [main]. *)
Definition main_turn (game : Game) (typed : string) (r_ai r_remark : nat)
  : list console * (Game * run unit) :=
  match Round_init game typed r_ai r_remark with
  | (out, (game, Stopped e)) => (out, (game, Stopped e))
  | (out, (game, Done the_round)) =>
      (out ++ [print_line (moves the_round ++ outcome the_round)%string],
       ({| move_objs := move_objs game;
           score :=
             mkScore (human (score game) + human (round_score the_round))
                     (ai (score game) + ai (round_score the_round));
           rounds := rounds game;
           move_names_str := move_names_str game;
           rules := rules game |},
        Done tt))
  end.

(** The loop of [main] for as long as there are lines to read: the game as
    the last turn leaves it, and what stopped the loop, if anything did. *)
Fixpoint main_loop (game : Game) (inputs : list (string * nat * nat))
  : list console * (Game * option raised) :=
  match inputs with
  | [] => ([], (game, None))
  | (typed, r_ai, r_remark) :: rest =>
      match main_turn game typed r_ai r_remark with
      | (out, (game, Stopped e)) => (out, (game, Some e))
      | (out, (game, Done _)) =>
          let '(out', end_) := main_loop game rest in (out ++ out', end_)
      end
  end.

(** The start of [main]: the game of the file named on the command line,
    or, on [IndexError], the game with default rules.  [rows] is what
    [csv.reader] yields for that file. *)
Definition main_start (argv : list string) (rows : list (list string))
  : list string * result Game :=
  match getitem argv 1 with
  | Ok filename =>
      match Game_init filename rows with
      | (log, Raise IndexError) =>
          (log ++ fst DefaultGame_init, snd DefaultGame_init)
      | started => started
      end
  | Raise _ => DefaultGame_init
  end.

(** ** Notions used to state the properties *)

(** [i] beats [j] in a list of moves: [j in move_objs[i].beats_num]. *)
Definition beats_index (objs : list Move) (i j : nat) : bool :=
  match nth_error objs i with
  | Some m => existsb (Nat.eqb j) (beats_num m)
  | None => false
  end.

(** The positions in the catalog of the names that are keys of [d]. *)
Definition key_indices (move_names : list string) (d : dict) : list nat :=
  filter (fun j => match nth_error move_names j with
                   | Some name => contains d name
                   | None => false
                   end)
         (seq 0 (length move_names)).

(** The set of targets as the specification words it: the moves at an odd
    offset [o], [1 <= o <= N - 2], from move [i]. *)
Definition odd_offset_target (N i j : nat) : Prop :=
  exists o, o mod 2 = 1 /\ 1 <= o <= N - 2 /\ j = (i + o) mod N.

(** The number of steps from [i] forward to [j] round a circle of [N]. *)
Definition offset_to (N i j : nat) : nat :=
  if i <=? j then j - i else j + N - i.

(** The pairs [(i, j)] with [j in move_objs[i].beats_num], in the order in
    which the diagram draws them. *)
Definition edges (objs : list Move) : list (nat * nat) :=
  flat_map (fun im => map (fun j => (fst im, j)) (beats_num (snd im)))
           (enumerate objs).

Definition is_line (e : element) : bool :=
  match e with line _ _ _ => true | _ => false end.

Definition is_text (e : element) : bool :=
  match e with text _ _ _ _ _ => true | _ => false end.

(** A number with at most two decimal places. *)
Definition two_decimals (c : R) : Prop := exists k : Z, c = (IZR k / 100)%R.

(** The rows of a catalog file name a move twice, or leave a name blank. *)
Definition has_duplicate_name (rows : list (list string)) : Prop :=
  ~ NoDup (map (fun row => hd "" row) rows).

Definition has_blank_name (rows : list (list string)) : Prop :=
  exists row, In row rows /\ strip (hd "" row) = "".

(** Every index-keyed target is a position in the list of moves. *)
Definition targets_in_range (objs : list Move) : Prop :=
  forall m t, In m objs -> In t (beats_num m) -> t < length objs.

(** What one turn of the drawing loop adds for the point [snd ip] of the
    move at [fst ip]: its lines, its circle and its legend. *)
Definition shapes (objs : list Move) (pts : list Point) (ip : nat * Point)
  : list element :=
  match nth_error objs (fst ip) with
  | Some m =>
      map (fun t => line (snd ip) (nth t pts (snd ip)) "black") (beats_num m)
      ++ [circle (px (rounded (x (snd ip))), px (rounded (y (snd ip))))
                 (px (IZR (CIRCLE_RADIUS (length objs)))) (px 2)
                 "grey" "white";
          text (move m) (downshifted objs (snd ip)) "middle"
               (px (text_length_px objs (move m))) "spacingAndGlyphs"]
  | None => []
  end.

(** The scene of a diagram whose drawing loop runs to its end. *)
Definition drawn (objs : list Move) (pts : list Point) : scene :=
  {| printed := map print_move (firstn (length pts) objs);
     defs := [style (text_size (length objs))];
     elements :=
       [rect (0, 0)%R (dup (px (IZR DIAGRAM_SIZE))) "10" "grey" "darkgrey";
        circle (dup (px (IZR DIAGRAM_RADIUS))) (px (IZR DIAGRAM_RADIUS))
               (px 1) "grey" "darkgrey"]
       ++ flat_map (shapes objs pts) (enumerate pts) |}.

(** A move that beats nothing, for positions outside a list. *)
Definition no_move : Move := mkMove "" [] 0 [].

(** The line that an edge [(i, j)] stands for: from point [i] to point
    [j]. *)
Definition origin : Point := {| x := 0; y := 0 |}.

Definition line_of (pts : list Point) (e : nat * nat) : element :=
  line (nth (fst e) pts origin) (nth (snd e) pts origin) "black".

(** The width of a legend as the specification words it:
    [min(len(name), 12) / 12 * 1.9 * r] pixels. *)
Definition fitted_width (name : string) (r : R) : R :=
  (INR (Nat.min (len name) 12) / 12 * 1.9 * r)%R.

(** [p / q] for a positive [q], rounded to the nearest integer and, half
    way between two integers, to the even one. *)
Definition round_div (p q : Z) : Z :=
  let f := (p / q)%Z in
  let r2 := (2 * (p mod q))%Z in
  if (r2 <? q)%Z then f
  else if (q <? r2)%Z then (f + 1)%Z
  else if Z.even f then f else (f + 1)%Z.

(** The width drawn for a name of [k] characters, [k] at most 12, round a
    marker of radius [r], in hundredths of a pixel. *)
#[warnings="-inexact-float"]
Definition width_hundredths (k r : Z) : Z :=
  let '(p, q) :=
    Double.fraction
      (1.9 * Double.of_int r * (Double.of_int k / Double.of_int 12))%float in
  round_div (100 * p) q.

(** For every length of name and every radius that a diagram can have, the
    width drawn is within half a hundredth of the fitted width:
    [|z / 100 - k / 12 * 1.9 * r| <= 1 / 200], cleared of fractions. *)
Definition widths_near_fit : bool :=
  forallb (fun k =>
    forallb (fun r =>
      let z := width_hundredths (Z.of_nat k) (Z.of_nat r) in
      (Z.abs (6 * z - 95 * Z.of_nat k * Z.of_nat r) <=? 3)%Z)
      (seq 0 501))
    (seq 0 13).

(** A string of characters below 128 only, where [strip] and [casefold] are
    the whole of [str.strip] and [str.casefold]. *)
Definition below_128 (s : string) : bool :=
  forallb (fun c => nat_of_ascii c <? 128) (list_ascii_of_string s).

(** What is printed when more points than moves are found. *)
Definition too_many_circles : output :=
  print_str "Slight error: I have data for too many circles in the diagram.".

(** The sentences of the rules, one for each move and each move it beats. *)
Definition rule_lines (objs : list Move) : list string :=
  flat_map (fun obj =>
    map (fun kv => (join " " [move obj; snd kv; fst kv] ++ "."
                    ++ String "010" "")%string)
        (beats obj)) objs.

(** A catalog as [Move.__init__] fills it for an odd number of moves, three
    at least: the index-keyed list of each move holds the positions at the
    odd offsets, and the keys of its dictionary are the names found there. *)
Definition catalog_ok (objs : list Move) : Prop :=
  let N := length objs in
  N mod 2 = 1 /\ 3 <= N /\
  forall i m, nth_error objs i = Some m ->
    beats_num m = map (fun o => (o + i) mod N) (range 1 N 2) /\
    forall k, In k (keys (beats m)) <->
      exists o m', In o (range 1 N 2) /\
                   nth_error objs ((i + o) mod N) = Some m' /\ move m' = k.

(** The loop has stopped, and not by [exit()]. *)
Definition crashed (end_ : option raised) : Prop :=
  match end_ with
  | None => False
  | Some (builtin SystemExit) => False
  | Some _ => True
  end.

(** The words that [get_human_move] takes for commands. *)
Definition command_words : list string :=
  ["exit"; "quit"; "score"; "points"; "rounds"; "length";
   "help"; "moves"; "rules"; "?"; "dia"; "diagram"].

(** What is typed names a move: without regard to the case of letters, the
    stripped input occurs in the name of the move. *)
Definition names_move (typed : string) (m : Move) : bool :=
  str_in (casefold (strip typed)) (casefold (move m)).

(** * Properties *)

Ltac Zify.zify_post_hook ::= Z.to_euclidean_division_equations.

(** ** Ranges and list comprehensions *)

Section Ranges.

Lemma range_all (n : nat) : range 0 n 1 = seq 0 n.
Proof.
  unfold range.
  replace ((n - 0 + 1 - 1) / 1) with n
    by (rewrite Nat.div_1_r; lia).
  rewrite <- (map_id (seq 0 n)) at 2.
  apply map_ext; intros k; lia.
Qed.

Lemma range_odd (n : nat) :
  range 1 n 2 = map (fun k => 1 + k * 2) (seq 0 (n / 2)).
Proof.
  unfold range. f_equal. f_equal. lia.
Qed.

(** The odd positions of [range(n)] are [range(1, n, 2)]. *)
Lemma odd_positions (n : nat) :
  filter (fun i => negb (i mod 2 =? 0)) (range 0 n 1) = range 1 n 2.
Proof.
  rewrite range_all, range_odd.
  induction n as [|n IH]; [reflexivity|].
  rewrite seq_S, filter_app, IH; cbn [filter Nat.add].
  destruct (Nat.eqb_spec (n mod 2) 0) as [E|E]; cbn [negb].
  - rewrite app_nil_r. f_equal. f_equal. lia.
  - replace (S n / 2) with (S (n / 2)) by lia.
    rewrite seq_S, map_app. cbn [map Nat.add]. do 2 f_equal. lia.
Qed.

Lemma In_range_odd (n o : nat) :
  In o (range 1 n 2) <-> o mod 2 = 1 /\ o < n.
Proof.
  rewrite range_odd, in_map_iff. split.
  - intros (k & <- & Hk). apply in_seq in Hk. lia.
  - intros (Ho & Hn). exists (o / 2). rewrite in_seq. lia.
Qed.

Lemma NoDup_range_odd (n : nat) : NoDup (range 1 n 2).
Proof.
  rewrite range_odd.
  apply Finite.Injective_map_NoDup; [|apply seq_NoDup].
  intros a b; lia.
Qed.

Lemma length_range_odd (n : nat) : length (range 1 n 2) = n / 2.
Proof. rewrite range_odd, length_map, length_seq. reflexivity. Qed.

End Ranges.

(** ** The parity rule *)

Section Parity.

Variable N : nat.

Lemma mod_wrap (a : nat) : N <= a < 2 * N -> a mod N = a - N.
Proof.
  intros H. symmetry. apply Nat.mod_unique with (q := 1); lia.
Qed.

Lemma shift_mod (i o : nat) :
  i < N -> o < N ->
  (o + i) mod N = if o + i <? N then o + i else o + i - N.
Proof.
  intros Hi Ho. destruct (Nat.ltb_spec (o + i) N).
  - apply Nat.mod_small; assumption.
  - apply mod_wrap; lia.
Qed.

(** Membership in the index-keyed list, without [mod]. *)
Lemma In_shifted_odds (i j : nat) :
  i < N ->
  In j (map (fun o => (o + i) mod N) (range 1 N 2)) <->
  j < N /\ offset_to N i j mod 2 = 1.
Proof.
  intros Hi. rewrite in_map_iff. unfold offset_to. split.
  - intros (o & <- & Ho). apply In_range_odd in Ho. destruct Ho as [Hodd Ho].
    rewrite shift_mod by assumption.
    destruct (Nat.ltb_spec (o + i) N);
      [destruct (Nat.leb_spec i (o + i)) | destruct (Nat.leb_spec i (o + i - N))];
      lia.
  - intros [Hj Hodd].
    destruct (Nat.leb_spec i j).
    + exists (j - i). rewrite In_range_odd. split; [|lia].
      rewrite shift_mod by lia. destruct (Nat.ltb_spec (j - i + i) N); lia.
    + exists (j + N - i). rewrite In_range_odd. split; [|lia].
      rewrite shift_mod by lia.
      destruct (Nat.ltb_spec (j + N - i + i) N); lia.
Qed.

Lemma NoDup_shifted_odds (i : nat) :
  i < N -> NoDup (map (fun o => (o + i) mod N) (range 1 N 2)).
Proof.
  intros Hi. apply Finite.Injective_map_NoDup_in; [|apply NoDup_range_odd].
  intros a b Ha Hb. apply In_range_odd in Ha, Hb.
  rewrite !shift_mod by lia.
  destruct (Nat.ltb_spec (a + i) N), (Nat.ltb_spec (b + i) N); lia.
Qed.

Lemma offset_self (i : nat) : offset_to N i i mod 2 <> 1.
Proof.
  unfold offset_to. rewrite Nat.leb_refl, Nat.sub_diag. cbn. lia.
Qed.

Hypothesis N_odd : N mod 2 = 1.

(** Of two different moves exactly one is at an odd offset from the
    other. *)
Lemma offset_parity (i j : nat) :
  i < N -> j < N -> i <> j ->
  (offset_to N i j mod 2 = 1 /\ offset_to N j i mod 2 <> 1) \/
  (offset_to N j i mod 2 = 1 /\ offset_to N i j mod 2 <> 1).
Proof.
  intros Hi Hj Hne. unfold offset_to.
  destruct (Nat.leb_spec i j), (Nat.leb_spec j i); lia.
Qed.

End Parity.

(** ** Dictionaries and the monadic map *)

Lemma In_keys_setitem (d : dict) (k v k' : string) :
  In k' (keys (setitem d k v)) <-> k' = k \/ In k' (keys d).
Proof.
  unfold keys. induction d as [|[k0 v0] d IH]; cbn [setitem map fst In].
  - intuition.
  - destruct (String.eqb_spec k0 k) as [->|Hne]; cbn [map fst In].
    + intuition.
    + rewrite IH. intuition.
Qed.

Lemma contains_In (d : dict) (k : string) :
  contains d k = true <-> In k (keys d).
Proof.
  unfold contains. rewrite existsb_exists. split.
  - intros (k' & Hin & E). apply String.eqb_eq in E. now subst.
  - intros Hin. exists k. split; [assumption|apply String.eqb_refl].
Qed.

Lemma mapM_Forall2 {A B} (f : A -> result B) (l : list A) :
  (forall a, In a l -> exists b, f a = Ok b) ->
  exists bs, mapM f l = Ok bs /\ Forall2 (fun a b => f a = Ok b) l bs.
Proof.
  induction l as [|a l IH]; intros H; cbn [mapM].
  - exists []. split; [reflexivity|constructor].
  - destruct (H a (or_introl eq_refl)) as [b Hb].
    destruct IH as (bs & Hbs & HF); [intros; apply H; now right|].
    exists (b :: bs). rewrite Hb, Hbs. split; [reflexivity|now constructor].
Qed.

Lemma mapM_inv {A B} (f : A -> result B) (l : list A) (bs : list B) :
  mapM f l = Ok bs -> Forall2 (fun a b => f a = Ok b) l bs.
Proof.
  revert bs. induction l as [|a l IH]; intros bs; cbn [mapM].
  - intros [= <-]. constructor.
  - destruct (f a) as [b|e] eqn:Hb; cbn [bind]; [|discriminate].
    destruct (mapM f l) as [bs'|e] eqn:Hbs; cbn [bind]; [|discriminate].
    intros [= <-]. constructor; [assumption|now apply IH].
Qed.

Lemma Forall2_nth_error {A B} (P : A -> B -> Prop) l bs i b :
  Forall2 P l bs -> nth_error bs i = Some b ->
  exists a, nth_error l i = Some a /\ P a b.
Proof.
  intros HF. revert i. induction HF as [|a0 b0 l bs H0 HF IH]; intros [|i]; cbn;
    try discriminate.
  - intros [= <-]. now exists a0.
  - apply IH.
Qed.

Lemma nth_error_enumerate {A} (l : list A) (i : nat) :
  nth_error (enumerate l) i =
  match nth_error l i with Some a => Some (i, a) | None => None end.
Proof.
  unfold enumerate.
  enough (G : forall s, nth_error (combine (seq s (length l)) l) i =
            match nth_error l i with Some a => Some (s + i, a) | None => None end)
    by apply (G 0).
  revert i. induction l as [|a l IH]; intros i s; cbn [length seq combine].
  - now destruct i.
  - destruct i as [|i]; cbn [nth_error].
    + now rewrite Nat.add_0_r.
    + rewrite IH. destruct (nth_error l i); [|reflexivity].
      do 2 f_equal. lia.
Qed.

(** ** [Move.__init__] *)

Section MoveInit.

Variable move_names : list string.
Local Abbreviation N := (length move_names).

Lemma beats_loop_ok (number : nat) (offsets : list nat) (info : list string)
    (acc : dict) :
  0 < N ->
  exists info' d,
    beats_loop offsets number N move_names info acc = Ok (info', d) /\
    forall k, In k (keys d) <->
      In k (keys acc) \/
      exists o, In o offsets /\ nth_error move_names ((number + o) mod N) = Some k.
Proof.
  intros HN. revert info acc.
  induction offsets as [|o rest IH]; intros info acc; cbn [beats_loop].
  - exists info, acc. split; [reflexivity|]. intros k. split; [tauto|].
    intros [H|(o & [] & _)]; assumption.
  - assert (Hlt : (number + o) mod N < N) by (apply Nat.mod_upper_bound; lia).
    destruct (nth_error move_names ((number + o) mod N)) as [loser|] eqn:Hl;
      [|apply nth_error_None in Hl; fold N in Hl; lia].
    set (vi := match pop0 info with
               | Ok (v, info') => (strip v, info')
               | Raise _ => (generic_verb, info)
               end).
    destruct vi as [verb info1].
    unfold getitem. rewrite Hl. cbn [bind].
    destruct (IH info1 (setitem acc loser verb)) as (info' & d & Hrun & Hkeys).
    exists info', d. split; [exact Hrun|].
    intros k. rewrite Hkeys, In_keys_setitem. split.
    + intros [[->|H]|(o' & Ho' & Hk)].
      * right. exists o. split; [now left|assumption].
      * now left.
      * right. exists o'. split; [now right|assumption].
    + intros [H|(o' & [<-|Ho'] & Hk)].
      * left. now right.
      * left. left. congruence.
      * right. now exists o'.
Qed.

(** [Move.__init__] on a row that has a name builds the move, and both views
    of what it beats are read off the odd offsets. *)
Lemma Move_init_ok (number : nat) (name : string) (verbs : list string) :
  exists m,
    Move_init number (name :: verbs) move_names = Ok m /\
    move m = name /\ num m = number /\
    beats_num m = map (fun o => (o + number) mod N) (range 1 N 2) /\
    forall k, In k (keys (beats m)) <->
      exists o, In o (range 1 N 2) /\
                nth_error move_names ((number + o) mod N) = Some k.
Proof.
  unfold Move_init. cbn [pop0 bind]. fold N.
  destruct (Nat.eq_dec N 0) as [E|E].
  - rewrite E. cbn. eexists. split; [reflexivity|]. repeat split; try reflexivity.
    + intros [].
    + intros (o & [] & _).
  - destruct (@beats_loop_ok number (range 1 N 2) verbs []) as (info' & d & Hrun & Hkeys);
      [lia|].
    rewrite Hrun. cbn [bind]. eexists. split; [reflexivity|].
    cbn [move num beats_num beats].
    repeat split; try reflexivity.
    + now rewrite odd_positions.
    + intros H. apply Hkeys in H. destruct H as [[]|H]. exact H.
    + intros H. apply Hkeys. now right.
Qed.

End MoveInit.

(** ** Counting with filters *)

Lemma length_filter_mem (l : list nat) (n : nat) :
  NoDup l -> (forall a, In a l -> a < n) ->
  length (filter (fun j => existsb (Nat.eqb j) l) (seq 0 n)) = length l.
Proof.
  intros Hnd Hlt. apply Permutation_length, NoDup_Permutation.
  - apply NoDup_filter, seq_NoDup.
  - assumption.
  - intros a. rewrite filter_In, in_seq, existsb_exists. split.
    + intros (_ & b & Hb & E). apply Nat.eqb_eq in E. now subst.
    + intros Ha. split; [specialize (Hlt a Ha); lia|].
      exists a. split; [assumption|apply Nat.eqb_refl].
Qed.

Lemma length_filter_three {A} (p q r : A -> bool) (l : list A) :
  (forall a, In a l ->
     Nat.b2n (p a) + Nat.b2n (q a) + Nat.b2n (r a) = 1) ->
  length (filter p l) + length (filter q l) + length (filter r l) = length l.
Proof.
  induction l as [|a l IH]; intros H; [reflexivity|].
  specialize (IH (fun b Hb => H b (or_intror Hb))).
  specialize (H a (or_introl eq_refl)).
  cbn [filter length].
  destruct (p a), (q a), (r a); cbn in H; try discriminate; cbn [length]; lia.
Qed.

Lemma length_filter_eqb (i n : nat) :
  i < n -> length (filter (Nat.eqb i) (seq 0 n)) = 1.
Proof.
  intros Hi.
  change 1 with (length [i]).
  rewrite <- (@length_filter_mem [i] n).
  - f_equal. apply filter_ext. intros a. cbn.
    rewrite orb_false_r. apply Nat.eqb_sym.
  - repeat constructor. intros [].
  - intros a [<-|[]]. assumption.
Qed.

(** ** A balanced catalog

    The facts below hold of any list of moves whose index-keyed lists are
    the ones [Move.__init__] computes for an odd number of moves. *)

Section Balanced.

Variable objs : list Move.
Local Abbreviation N := (length objs).

Hypothesis N_odd : N mod 2 = 1.
Hypothesis objs_beats_num :
  forall i m, nth_error objs i = Some m ->
    beats_num m = map (fun o => (o + i) mod N) (range 1 N 2).

Lemma beats_index_offset (i j : nat) :
  beats_index objs i j = true <->
  i < N /\ j < N /\ offset_to N i j mod 2 = 1.
Proof.
  unfold beats_index.
  destruct (nth_error objs i) as [m|] eqn:Hm.
  - assert (Hi : i < N) by (apply nth_error_Some; congruence).
    rewrite (objs_beats_num _ Hm), existsb_exists. split.
    + intros (k & Hk & E). apply Nat.eqb_eq in E. subst k.
      apply In_shifted_odds in Hk; tauto.
    + intros (_ & Hj & Ho). exists j. split; [|apply Nat.eqb_refl].
      apply In_shifted_odds; tauto.
  - apply nth_error_None in Hm. fold N in Hm. split; [discriminate|lia].
Qed.

Lemma beats_irreflexive (i : nat) : beats_index objs i i = false.
Proof.
  apply not_true_is_false. rewrite beats_index_offset.
  intros (_ & _ & H). exact (offset_self N i H).
Qed.

Lemma beats_one_way (i j : nat) :
  beats_index objs i j = true -> beats_index objs j i = false.
Proof.
  intros Hij. apply not_true_is_false. intros Hji.
  apply beats_index_offset in Hij, Hji.
  destruct Hij as (Hi & Hj & Hij), Hji as (_ & _ & Hji).
  destruct (Nat.eq_dec i j) as [->|Hne]; [exact (offset_self N j Hij)|].
  destruct (offset_parity N_odd Hi Hj Hne); tauto.
Qed.

Lemma beats_decided (i j : nat) :
  i < N -> j < N -> i <> j ->
  beats_index objs i j = true \/ beats_index objs j i = true.
Proof.
  intros Hi Hj Hne. rewrite !beats_index_offset.
  destruct (offset_parity N_odd Hi Hj Hne); intuition.
Qed.

Lemma beats_num_shape (i : nat) (m : Move) :
  nth_error objs i = Some m ->
  length (beats_num m) = (N - 1) / 2 /\ NoDup (beats_num m) /\
  forall j, In j (beats_num m) -> j < N /\ j <> i.
Proof.
  intros Hm.
  assert (Hi : i < N) by (apply nth_error_Some; congruence).
  rewrite (objs_beats_num _ Hm). repeat split.
  - rewrite length_map, length_range_odd. lia.
  - now apply NoDup_shifted_odds.
  - apply In_shifted_odds in H; tauto.
  - intros ->. apply In_shifted_odds in H; [|assumption].
    exact (offset_self N i (proj2 H)).
Qed.

Lemma wins_count (i : nat) :
  i < N -> length (filter (beats_index objs i) (seq 0 N)) = (N - 1) / 2.
Proof.
  intros Hi. unfold beats_index.
  destruct (nth_error objs i) as [m|] eqn:Hm;
    [|apply nth_error_None in Hm; fold N in Hm; lia].
  destruct (beats_num_shape _ Hm) as (Hlen & Hnd & Hin).
  rewrite length_filter_mem; [assumption|assumption|].
  intros a Ha. now apply Hin.
Qed.

Lemma losses_count (i : nat) :
  i < N ->
  length (filter (fun k => beats_index objs k i) (seq 0 N)) = (N - 1) / 2.
Proof.
  intros Hi.
  pose proof (@length_filter_three nat (Nat.eqb i) (beats_index objs i)
                (fun k => beats_index objs k i) (seq 0 N)) as H3.
  rewrite length_filter_eqb, wins_count, length_seq in H3 by assumption.
  enough (1 + (N - 1) / 2 +
          length (filter (fun k => beats_index objs k i) (seq 0 N)) = N) by lia.
  apply H3. intros k Hk. apply in_seq in Hk.
  destruct (Nat.eqb_spec i k) as [<-|Hne].
  - now rewrite beats_irreflexive.
  - destruct (beats_decided Hi (proj2 Hk) Hne) as [H|H].
    + now rewrite H, (beats_one_way _ _ H).
    + now rewrite H, (beats_one_way _ _ H).
Qed.

End Balanced.

(** ** [Game.__init__] *)

Lemma read_moves_inv (rows mf : list (list string)) :
  read_moves rows = Ok mf ->
  mf = filter (fun row => negb (length row =? 0)) rows /\
  length mf mod 2 = 1 /\ 3 <= length mf.
Proof.
  unfold read_moves.
  set (l := filter _ rows).
  destruct (Nat.eqb_spec (length l mod 2) 0); [discriminate|].
  destruct (Nat.ltb_spec (length l) 3); [discriminate|].
  intros [= <-]. repeat split; lia.
Qed.

Lemma read_moves_rows_named (rows mf : list (list string)) :
  read_moves rows = Ok mf -> forall row, In row mf -> row <> [].
Proof.
  intros H row Hin. apply read_moves_inv in H. destruct H as (-> & _).
  apply filter_In in Hin. destruct Hin as [_ Hlen]. now destruct row.
Qed.

Lemma first_names (mf : list (list string)) :
  (forall row, In row mf -> row <> []) ->
  mapM (fun item => getitem item 0) mf = Ok (map (hd "") mf).
Proof.
  induction mf as [|row mf IH]; intros H; [reflexivity|].
  cbn [mapM map]. rewrite IH by (intros; apply H; now right).
  destruct row as [|name verbs]; [now destruct (H [] (or_introl eq_refl))|].
  reflexivity.
Qed.

(** On a file with an odd number of rows, three at least, the game is built:
    one move per row, each with the lists of [Move.__init__]. *)
Lemma Game_init_ok (filename : string) (rows mf : list (list string)) :
  read_moves rows = Ok mf ->
  exists g,
    Game_init filename rows =
      ([("Starting game with rules from " ++ filename ++ ".")%string], Ok g) /\
    length (move_objs g) = length mf /\
    forall i m, nth_error (move_objs g) i = Some m ->
      exists row, nth_error mf i = Some row /\
                  Move_init i row (map (hd "") mf) = Ok m.
Proof.
  intros Hread. unfold Game_init. rewrite Hread.
  pose proof (read_moves_rows_named _ Hread) as Hnamed.
  rewrite (first_names _ Hnamed). cbn [bind].
  set (names := map (hd "") mf).
  destruct (@mapM_Forall2 _ _
              (fun im => Move_init (fst im) (snd im) names) (enumerate mf))
    as (objs & Hobjs & HF).
  { intros [i row] Hin. cbn [fst snd].
    assert (Hrow : In row mf).
    { unfold enumerate in Hin. now apply in_combine_r in Hin. }
    destruct row as [|name verbs]; [now destruct (Hnamed [] Hrow)|].
    destruct (Move_init_ok names i name verbs) as (m & Hm & _).
    now exists m. }
  rewrite Hobjs. cbn [bind]. eexists. split; [reflexivity|].
  cbn [move_objs complete_initialisation]. split.
  - apply Forall2_length in HF. rewrite <- HF. unfold enumerate.
    rewrite length_combine, length_seq. lia.
  - intros i m Hm.
    destruct (Forall2_nth_error _ HF Hm) as ([i' row] & Hir & Hinit).
    rewrite nth_error_enumerate in Hir.
    destruct (nth_error mf i) as [row'|]; [|discriminate].
    injection Hir as <- <-. now exists row'.
Qed.

(** The rows that pass the checks: an odd number of non-empty rows, three
    at least. *)
Lemma read_moves_valid (rows : list (list string)) :
  let named := filter (fun row => negb (length row =? 0)) rows in
  length named mod 2 = 1 -> 3 <= length named ->
  read_moves rows = Ok named.
Proof.
  intros named Hodd H3. unfold read_moves. fold named.
  destruct (Nat.eqb_spec (length named mod 2) 0); [lia|].
  destruct (Nat.ltb_spec (length named) 3); [lia|reflexivity].
Qed.

(** The moves of a game that has been built bear the first fields of the
    rows, in the order of the rows. *)
Lemma Game_init_names (filename : string) (rows mf : list (list string))
    (log : list string) (g : Game) :
  read_moves rows = Ok mf -> Game_init filename rows = (log, Ok g) ->
  map move (move_objs g) = map (hd "") mf.
Proof.
  intros Hread Hinit.
  destruct (@Game_init_ok filename _ _ Hread) as (g' & Hrun & Hlen & Hobjs).
  assert (E : g' = g) by congruence. subst g'.
  apply nth_error_ext. intros i. rewrite !nth_error_map.
  destruct (nth_error (move_objs g) i) as [m|] eqn:Hm.
  - destruct (Hobjs i m Hm) as (row & Hrow & Hmv). rewrite Hrow.
    destruct row as [|name verbs];
      [exfalso; eapply (read_moves_rows_named _ Hread);
         [eapply nth_error_In; eassumption|reflexivity]|].
    destruct (Move_init_ok (map (hd "") mf) i name verbs)
      as (m' & Hm' & Hmove & _).
    assert (E : m' = m) by congruence. subst m'. cbn. now rewrite Hmove.
  - apply nth_error_None in Hm. rewrite Hlen in Hm.
    apply nth_error_None in Hm. now rewrite Hm.
Qed.

Lemma Game_init_inv (filename : string) (rows : list (list string)) log g :
  Game_init filename rows = (log, Ok g) ->
  exists mf, read_moves rows = Ok mf.
Proof.
  unfold Game_init. destruct (read_moves rows) as [mf|e].
  - intros _. now exists mf.
  - destruct e; discriminate.
Qed.

(** What a game that has been built knows about its moves. *)
Lemma Game_init_moves (filename : string) (rows : list (list string)) log g :
  Game_init filename rows = (log, Ok g) ->
  let N := length (move_objs g) in
  N mod 2 = 1 /\ 3 <= N /\
  forall i m, nth_error (move_objs g) i = Some m ->
    beats_num m = map (fun o => (o + i) mod N) (range 1 N 2).
Proof.
  intros Hinit. destruct (Game_init_inv _ _ Hinit) as [mf Hread].
  destruct (@Game_init_ok filename _ _ Hread) as (g' & Hrun & Hlen & Hobjs).
  rewrite Hrun in Hinit. injection Hinit as _ ->.
  destruct (read_moves_inv _ Hread) as (_ & Hodd & H3).
  cbv zeta. rewrite Hlen. repeat split; try assumption.
  intros i m Hm. destruct (Hobjs i m Hm) as (row & Hrow & Hmv).
  assert (Hne : row <> []).
  { apply (read_moves_rows_named _ Hread). eapply nth_error_In; eassumption. }
  destruct row as [|name verbs]; [now destruct Hne|].
  destruct (Move_init_ok (map (hd "") mf) i name verbs) as (m' & Hm' & _ & _ & Hbn & _).
  rewrite Hm' in Hmv. injection Hmv as ->.
  rewrite Hbn, length_map. reflexivity.
Qed.

(** ** The two views of what a move beats *)

(** C1.  In a catalog of [N] distinct move names, [N] odd and at least 3,
    and for any row [name :: verbs] and any move index [i], the positions in
    the catalog of the names that are keys of the name-keyed [beats] are
    exactly the entries of the index-keyed [beats_num], and both are the
    moves [(i + o) mod N] at an odd offset [o] with [1 <= o <= N - 2]. *)
Theorem beats_views_agree (move_names : list string) (i : nat)
    (name : string) (verbs : list string) :
  let N := length move_names in
  N mod 2 = 1 -> 3 <= N -> NoDup move_names ->
  exists m,
    Move_init i (name :: verbs) move_names = Ok m /\
    (forall j, In j (key_indices move_names (beats m)) <-> In j (beats_num m)) /\
    (forall j, In j (beats_num m) <-> odd_offset_target N i j).
Proof.
  intros N Hodd H3 Hnd.
  destruct (Move_init_ok move_names i name verbs)
    as (m & Hm & _ & _ & Hnum & Hkeys).
  fold N in Hnum, Hkeys.
  exists m. split; [exact Hm|]. split; intros j.
  - unfold key_indices. rewrite filter_In, in_seq, Hnum, in_map_iff. split.
    + intros (Hj & Hc).
      destruct (nth_error move_names j) as [nm|] eqn:Hnm; [|discriminate].
      apply contains_In, Hkeys in Hc. destruct Hc as (o & Ho & Hnth).
      exists o. split; [|exact Ho].
      rewrite Nat.add_comm. symmetry.
      apply (proj1 (NoDup_nth_error move_names) Hnd); [lia|congruence].
    + intros (o & <- & Ho).
      assert (Hlt : (o + i) mod N < N) by (apply Nat.mod_upper_bound; lia).
      split; [lia|].
      destruct (nth_error move_names ((o + i) mod N)) as [nm|] eqn:Hnm;
        [|apply nth_error_None in Hnm; fold N in Hnm; lia].
      apply contains_In, Hkeys. exists o. split; [exact Ho|].
      now rewrite Nat.add_comm.
  - rewrite Hnum, in_map_iff. unfold odd_offset_target. split.
    + intros (o & <- & Ho). apply In_range_odd in Ho.
      exists o. rewrite (Nat.add_comm i o). repeat split; lia.
    + intros (o & Ho & Hr & ->). exists o.
      rewrite In_range_odd, (Nat.add_comm i o). repeat split; lia.
Qed.

Lemma beats_views_agree_witness :
  exists m,
    Move_init 1 ["Paper"; "wraps"] ["Scissors"; "Paper"; "Rock"] = Ok m /\
    (forall j, In j (key_indices ["Scissors"; "Paper"; "Rock"] (beats m)) <->
               In j (beats_num m)) /\
    (forall j, In j (beats_num m) <-> odd_offset_target 3 1 j).
Proof.
  apply (@beats_views_agree ["Scissors"; "Paper"; "Rock"] 1 "Paper" ["wraps"]).
  - reflexivity.
  - cbn. lia.
  - repeat constructor; cbn; intuition discriminate.
Defined.

(** When a name occurs twice the keys no longer tell the positions apart:
    the first move of [A, A, B] beats position 1 only, and its one key names
    positions 0 and 1. *)
Example repeated_name_blurs_keys :
  exists m,
    Move_init 0 ["A"] ["A"; "A"; "B"] = Ok m /\
    beats_num m = [1] /\ key_indices ["A"; "A"; "B"] (beats m) = [0; 1].
Proof. eexists. split; [reflexivity|]. split; reflexivity. Qed.

(** ** Fairness of the relation *)

(** C2.  Every catalog with an odd number [N] of moves, three at least,
    that is, every file with [N] non-empty rows, is built by
    [Game.__init__] into [N] moves that bear the names of the rows; among
    them no move beats itself, no two moves beat each other, of two different
    moves one beats the other, and every move beats exactly [(N - 1) / 2]
    moves and is beaten by exactly [(N - 1) / 2]. *)
Theorem beats_relation_fair (filename : string) (rows : list (list string)) :
  let named := filter (fun row => negb (length row =? 0)) rows in
  let N := length named in
  N mod 2 = 1 -> 3 <= N ->
  exists g,
    Game_init filename rows =
      ([("Starting game with rules from " ++ filename ++ ".")%string], Ok g) /\
    let objs := move_objs g in
    length objs = N /\ map move objs = map (hd "") named /\
    (forall i, beats_index objs i i = false) /\
    (forall i j, beats_index objs i j = true -> beats_index objs j i = false) /\
    (forall i j, i < N -> j < N -> i <> j ->
       beats_index objs i j = true \/ beats_index objs j i = true) /\
    (forall i, i < N ->
       length (filter (beats_index objs i) (seq 0 N)) = (N - 1) / 2 /\
       length (filter (fun k => beats_index objs k i) (seq 0 N)) = (N - 1) / 2) /\
    (forall i m, nth_error objs i = Some m ->
       length (beats_num m) = (N - 1) / 2 /\ NoDup (beats_num m) /\
       forall j, In j (beats_num m) -> j < N /\ j <> i).
Proof.
  intros named N Hodd H3.
  pose proof (read_moves_valid rows Hodd H3) as Hread. fold named in Hread.
  destruct (@Game_init_ok filename _ _ Hread) as (g & Hrun & Hlen & _).
  exists g. split; [exact Hrun|]. intros objs.
  destruct (Game_init_moves _ _ Hrun) as (Hodd' & _ & Hnum).
  fold objs in Hodd', Hnum, Hlen. fold N in Hlen.
  split; [exact Hlen|].
  split; [exact (@Game_init_names filename rows named _ g Hread Hrun)|].
  rewrite <- Hlen.
  split; [intros i; now apply beats_irreflexive|].
  split; [intros i j; now apply beats_one_way|].
  split; [intros i j; now apply beats_decided|].
  split.
  - intros i Hi. split; [now apply wins_count|now apply losses_count].
  - intros i m. now apply beats_num_shape.
Qed.

Lemma beats_relation_fair_witness :
  exists g,
    Game_init "rules.csv"
      [["Axe"; "chops"; "carves"]; ["Bow"]; []; ["Cat"; "claws"]; ["Dog"];
       ["Elk"; "gores"; "tramples"]]
    = (["Starting game with rules from rules.csv."], Ok g) /\
    length (move_objs g) = 5 /\
    map move (move_objs g) = ["Axe"; "Bow"; "Cat"; "Dog"; "Elk"] /\
    (forall i j, beats_index (move_objs g) i j = true ->
                 beats_index (move_objs g) j i = false).
Proof.
  destruct (@beats_relation_fair "rules.csv"
              [["Axe"; "chops"; "carves"]; ["Bow"]; []; ["Cat"; "claws"];
               ["Dog"]; ["Elk"; "gores"; "tramples"]])
    as (g & H1 & H2 & H3 & _ & H4 & _); [reflexivity|cbn; lia|].
  exists g. repeat split; assumption.
Defined.

(** ** Validation of the catalog *)

(** C3, as the code has it.  [Game.__init__] ends in [exit()], and builds no
    move, whenever the number of non-empty rows is even or less than 3;
    it then has printed the reason.  Names are not looked at. *)
Theorem bad_count_exits (filename : string) (rows : list (list string)) :
  let count := length (filter (fun row => negb (length row =? 0)) rows) in
  count mod 2 = 0 \/ count < 3 ->
  exists reason,
    Game_init filename rows =
      (["There has been a problem opening your CSV file."; reason],
       Raise SystemExit).
Proof.
  intros count H. unfold Game_init, read_moves. fold count.
  destruct (Nat.eqb_spec (count mod 2) 0); [eexists; reflexivity|].
  destruct (Nat.ltb_spec count 3); [eexists; reflexivity|lia].
Qed.

Lemma bad_count_exits_witness :
  exists reason,
    Game_init "rules.csv" [["Rock"]; []; ["Paper"]] =
      (["There has been a problem opening your CSV file."; reason],
       Raise SystemExit).
Proof.
  apply (@bad_count_exits "rules.csv" [["Rock"]; []; ["Paper"]]).
  left. reflexivity.
Defined.

(** A catalog with a repeated name, and one with a blank name, are built
    all the same. *)
Lemma repeated_and_blank_names_accepted :
  (has_duplicate_name [["Rock"]; ["Rock"]; ["Paper"]] /\
   exists g, snd (Game_init "rules.csv" [["Rock"]; ["Rock"]; ["Paper"]]) = Ok g /\
             length (move_objs g) = 3) /\
  (has_blank_name [[" "; "cuts"]; ["Rock"]; ["Paper"]] /\
   exists g, snd (Game_init "rules.csv" [[" "; "cuts"]; ["Rock"]; ["Paper"]]) = Ok g /\
             length (move_objs g) = 3).
Proof.
  split; split.
  - intros H. inversion H as [|? ? Hnin _]. apply Hnin. now left.
  - eexists. split; reflexivity.
  - exists [" "; "cuts"]. split; [now left|reflexivity].
  - eexists. split; reflexivity.
Qed.

(** ** Rounding *)

Section Rounding.

Local Open Scope R_scope.

Lemma Reqb_spec (a b : R) : reflect (a = b) (Reqb a b).
Proof. unfold Reqb. destruct (Req_dec_T a b); now constructor. Qed.

Lemma Rltb_spec (a b : R) : reflect (a < b) (Rltb a b).
Proof. unfold Rltb. destruct (Rlt_dec a b); now constructor. Qed.

Lemma Int_part_bounds (a : R) : IZR (Int_part a) <= a < IZR (Int_part a) + 1.
Proof. destruct (base_Int_part a). lra. Qed.

Lemma Int_part_unique (a : R) (z : Z) :
  IZR z <= a < IZR z + 1 -> Int_part a = z.
Proof. intros H. symmetry. apply Int_part_spec. lra. Qed.

(** [round] picks the integer that is less than a half away. *)
Lemma round_near (a : R) (z : Z) :
  IZR z - 1 / 2 < a < IZR z + 1 / 2 -> round a = z.
Proof.
  intros H. unfold round.
  destruct (Rle_lt_dec (IZR z) a) as [Hle|Hlt].
  - rewrite (@Int_part_unique a z) by lra.
    destruct (Rltb_spec (a - IZR z) (1 / 2)); [reflexivity|lra].
  - rewrite (@Int_part_unique a (z - 1)) by (rewrite minus_IZR; lra).
    rewrite minus_IZR.
    destruct (Rltb_spec (a - (IZR z - 1)) (1 / 2)); [lra|].
    destruct (Rltb_spec (1 / 2) (a - (IZR z - 1))); [lia|lra].
Qed.

Lemma round_IZR (z : Z) : round (IZR z) = z.
Proof. apply round_near. lra. Qed.

(** [round] is never more than a half away. *)
Lemma round_error (a : R) : - (1 / 2) <= a - IZR (round a) <= 1 / 2.
Proof.
  unfold round. pose proof (Int_part_bounds a) as Hb.
  destruct (Rltb_spec (a - IZR (Int_part a)) (1 / 2)); [lra|].
  destruct (Rltb_spec (1 / 2) (a - IZR (Int_part a))).
  - rewrite plus_IZR. lra.
  - destruct (Z.even (Int_part a)); [|rewrite plus_IZR]; lra.
Qed.

Lemma round_monotone (a b : R) : a <= b -> (round a <= round b)%Z.
Proof.
  intros Hab. destruct (Z_le_gt_dec (round a) (round b)) as [H|H]; [exact H|].
  exfalso.
  assert (Hz : (round b + 1 <= round a)%Z) by lia.
  apply IZR_le in Hz. rewrite plus_IZR in Hz.
  pose proof (round_error a) as Ha. pose proof (round_error b) as Hb.
  assert (E : a = b) by lra. subst a. lia.
Qed.

Lemma rounded_unfold (a : R) : rounded a = IZR (round (a * 100)) / 100.
Proof.
  unfold rounded, round_to, DEC_PLACES. cbn [pow].
  replace (10 * (10 * 1)) with 100 by lra. reflexivity.
Qed.

Lemma rounded_two_decimals (a : R) : two_decimals (rounded a).
Proof. exists (round (a * 100)). apply rounded_unfold. Qed.

Lemma rounded_near (a : R) (k : Z) :
  IZR k - 1 / 2 < a * 100 < IZR k + 1 / 2 -> rounded a = IZR k / 100.
Proof. intros H. now rewrite rounded_unfold, (@round_near _ _ H). Qed.

(** A number with two decimal places is left as it is. *)
Lemma rounded_fixed (a : R) : two_decimals a -> rounded a = a.
Proof.
  intros [k ->]. apply rounded_near. lra.
Qed.

Lemma rounded_idempotent (a : R) : rounded (rounded a) = rounded a.
Proof. apply rounded_fixed, rounded_two_decimals. Qed.

Lemma rounded_IZR (z : Z) : rounded (IZR z) = IZR z.
Proof.
  apply rounded_fixed. exists (z * 100)%Z. rewrite mult_IZR. lra.
Qed.

Lemma rounded_error (a : R) : Rabs (rounded a - a) <= 1 / 200.
Proof.
  rewrite rounded_unfold. pose proof (round_error (a * 100)) as H.
  apply Rabs_le. lra.
Qed.

End Rounding.

(** ** The angles and the radii *)

Section Angles.

Local Open Scope R_scope.

Lemma DIAGRAM_RADIUS_value : DIAGRAM_RADIUS = 500%Z.
Proof.
  unfold DIAGRAM_RADIUS, DIAGRAM_SIZE.
  replace (1000 / 2) with (IZR 500) by lra. apply round_IZR.
Qed.

Lemma INR_positive (n : nat) : (0 < n)%nat -> 0 < INR n.
Proof. intros H. apply lt_0_INR. exact H. Qed.

(** [frange(360 / n, 360, 360 / n)] has [n] values: the multiples of the
    slice from the first to the [n]-th. *)
Lemma frange_slices (n : nat) :
  (0 < n)%nat ->
  frange (360 / INR n) 360 (360 / INR n) =
  map (fun k => INR (S k) * (360 / INR n)) (seq 0 n).
Proof.
  intros Hn. pose proof (INR_positive Hn) as Hpos. unfold frange.
  replace ((360 - 360 / INR n) / (360 / INR n)) with (IZR (Z.of_nat n - 1)).
  - rewrite round_IZR.
    replace (Z.to_nat (Z.of_nat n - 1 + 1)) with n by lia.
    apply map_ext. intros k. rewrite S_INR. lra.
  - rewrite minus_IZR, <- INR_IZR_INZ. field. lra.
Qed.

Lemma angles_ok (n : nat) :
  (0 < n)%nat ->
  angles n = Ok (map (fun k => INR (S k) * (360 / INR n)) (seq 0 n)).
Proof.
  intros Hn. unfold angles, FULL_CIRCLE.
  destruct (Nat.eqb_spec n 0); [lia|]. now rewrite frange_slices.
Qed.

Lemma layout_ok (n : nat) :
  (0 < n)%nat ->
  layout n =
  Ok (map (fun k => move_point n (INR (S k) * (360 / INR n))) (seq 0 n)).
Proof.
  intros Hn. unfold layout. rewrite angles_ok by assumption.
  cbn [bind]. now rewrite map_map.
Qed.

Lemma layout_length (n : nat) (pts : list Point) :
  layout n = Ok pts -> length pts = n.
Proof.
  destruct (Nat.eq_dec n 0) as [->|Hn]; [discriminate|].
  rewrite layout_ok by lia. intros H.
  assert (E : pts = map (fun k => move_point n (INR (S k) * (360 / INR n)))
                        (seq 0 n)) by congruence.
  now rewrite E, length_map, length_seq.
Qed.

Lemma fmod_unique (a b : R) (q : Z) :
  0 < b -> IZR q * b <= a < (IZR q + 1) * b -> fmod a b = a - IZR q * b.
Proof.
  intros Hb H. unfold fmod. rewrite (@Int_part_unique (a / b) q); [reflexivity|].
  split.
  - apply Rmult_le_reg_r with b; [assumption|]. unfold Rdiv.
    rewrite Rmult_assoc, Rinv_l by lra. lra.
  - apply Rmult_lt_reg_r with b; [assumption|]. unfold Rdiv.
    rewrite Rmult_assoc, Rinv_l by lra. lra.
Qed.

End Angles.

(** ** The points *)

Section Points.

Local Open Scope R_scope.

Lemma Point_init_IZR (a b : Z) :
  Point_init (IZR a) (IZR b) = {| x := IZR a; y := IZR b |}.
Proof. unfold Point_init. now rewrite !rounded_IZR. Qed.

Lemma fmod_small (a b : R) : 0 <= a < b -> fmod a b = a.
Proof.
  intros H. rewrite (@fmod_unique a b 0) by lra. lra.
Qed.

Lemma CIRCLE_RADIUS_near (n : nat) (z : Z) :
  IZR z - 1 / 2 < 500 / INR n < IZR z + 1 / 2 -> CIRCLE_RADIUS n = z.
Proof.
  intros H. unfold CIRCLE_RADIUS. rewrite DIAGRAM_RADIUS_value.
  now apply round_near.
Qed.

Lemma CIRCLE_RADIUS_bounds (n : nat) :
  (0 < n)%nat -> (0 <= CIRCLE_RADIUS n <= 500)%Z.
Proof.
  intros Hn. unfold CIRCLE_RADIUS. rewrite DIAGRAM_RADIUS_value.
  assert (Hpos : 0 < INR n) by (now apply INR_positive).
  assert (H1 : 1 <= INR n) by (change 1 with (INR 1); apply le_INR; lia).
  assert (Hi : 0 < / INR n) by (now apply Rinv_0_lt_compat).
  assert (Hle : 500 / INR n <= 500).
  { apply Rmult_le_reg_r with (INR n); [assumption|]. unfold Rdiv.
    rewrite Rmult_assoc, Rinv_l by lra. nra. }
  assert (Hge : 0 <= 500 / INR n) by (unfold Rdiv; nra).
  pose proof (round_monotone Hge) as A. pose proof (round_monotone Hle) as B.
  rewrite round_IZR in A, B. split; assumption.
Qed.

Lemma CIRCLE_RADIUS_3 : CIRCLE_RADIUS 3 = 167%Z.
Proof. apply CIRCLE_RADIUS_near. cbn [INR]. lra. Qed.


Variable n : nat.

Lemma point_args_north (angle : R) :
  angle = 0 \/ angle = 360 ->
  point_args n angle = (IZR DIAGRAM_RADIUS, IZR (CIRCLE_RADIUS n)).
Proof.
  intros H. unfold point_args, NORTH, FULL_CIRCLE.
  destruct (Reqb_spec angle 0), (Reqb_spec angle 360); cbn [orb];
    try reflexivity.
  lra.
Qed.

Lemma point_args_east :
  point_args n 90 = (IZR (DIAGRAM_SIZE - CIRCLE_RADIUS n), IZR DIAGRAM_RADIUS).
Proof.
  unfold point_args, NORTH, FULL_CIRCLE, EAST.
  destruct (Reqb_spec 90 0); [lra|]. destruct (Reqb_spec 90 360); [lra|].
  cbn [orb]. destruct (Reqb_spec 90 90); [reflexivity|lra].
Qed.

Lemma point_args_south :
  point_args n 180 = (IZR DIAGRAM_RADIUS, IZR (DIAGRAM_SIZE - CIRCLE_RADIUS n)).
Proof.
  unfold point_args, NORTH, FULL_CIRCLE, EAST, SOUTH.
  destruct (Reqb_spec 180 0); [lra|]. destruct (Reqb_spec 180 360); [lra|].
  cbn [orb]. destruct (Reqb_spec 180 90); [lra|].
  destruct (Reqb_spec 180 180); [reflexivity|lra].
Qed.

Lemma point_args_west :
  point_args n 270 = (IZR (CIRCLE_RADIUS n), IZR DIAGRAM_RADIUS).
Proof.
  unfold point_args, NORTH, FULL_CIRCLE, EAST, SOUTH, WEST.
  destruct (Reqb_spec 270 0); [lra|]. destruct (Reqb_spec 270 360); [lra|].
  cbn [orb]. destruct (Reqb_spec 270 90); [lra|].
  destruct (Reqb_spec 270 180); [lra|].
  destruct (Reqb_spec 270 270); [reflexivity|lra].
Qed.

(** Off the four directions the point comes from the sine and the cosine
    of the angle within its quadrant. *)
Lemma point_args_slanted (angle : R) :
  angle <> 0 -> angle <> 360 -> angle <> 90 -> angle <> 180 -> angle <> 270 ->
  point_args n angle =
    let radians := radians (fmod angle 90) in
    let opposite := IZR (hypotenuse n) * sin radians in
    let adjacent := IZR (hypotenuse n) * cos radians in
    if Rltb angle 90 then
      (IZR DIAGRAM_RADIUS + opposite, IZR DIAGRAM_RADIUS - adjacent)
    else if Rltb angle 180 then
      (IZR DIAGRAM_RADIUS + adjacent, IZR DIAGRAM_RADIUS + opposite)
    else if Rltb angle 270 then
      (IZR DIAGRAM_RADIUS - opposite, IZR DIAGRAM_RADIUS + adjacent)
    else
      (IZR DIAGRAM_RADIUS - adjacent, IZR DIAGRAM_RADIUS - opposite).
Proof.
  intros H0 H360 H90 H180 H270.
  unfold point_args, NORTH, FULL_CIRCLE, EAST, SOUTH, WEST.
  destruct (Reqb_spec angle 0); [contradiction|].
  destruct (Reqb_spec angle 360); [contradiction|]. cbn [orb].
  destruct (Reqb_spec angle 90); [contradiction|].
  destruct (Reqb_spec angle 180); [contradiction|].
  destruct (Reqb_spec angle 270); [contradiction|].
  reflexivity.
Qed.

End Points.

Section Trigonometry.

Local Open Scope R_scope.

Lemma sin_cos_circle (h t : R) :
  (h * sin t) * (h * sin t) + (h * cos t) * (h * cos t) = h * h.
Proof.
  pose proof (sin2_cos2 t) as H. unfold Rsqr in H.
  replace (h * sin t * (h * sin t) + h * cos t * (h * cos t))
    with (h * h * (sin t * sin t + cos t * cos t)) by ring.
  rewrite H. ring.
Qed.

Lemma sqrt_3_bounds : 1.73205 < sqrt 3 < 1.73206.
Proof.
  pose proof (sqrt_pos 3) as Hpos.
  assert (Hsq : sqrt 3 * sqrt 3 = 3) by (apply sqrt_sqrt; lra).
  split; nra.
Qed.

Lemma radians_30 : radians (fmod 120 90) = PI / 6.
Proof.
  rewrite (@fmod_unique 120 90 1) by lra. unfold radians. lra.
Qed.

Lemma radians_60 : radians (fmod 240 90) = PI / 3.
Proof.
  rewrite (@fmod_unique 240 90 2) by lra. unfold radians. lra.
Qed.

End Trigonometry.

(** ** The layout of three and of four moves *)

Section SmallLayouts.

Local Open Scope R_scope.

Lemma angles_3 : angles 3 = Ok [120; 240; 360].
Proof.
  rewrite angles_ok by lia. cbn [seq map INR]. repeat f_equal; lra.
Qed.


Lemma hypotenuse_3 : hypotenuse 3 = 333%Z.
Proof.
  unfold hypotenuse. now rewrite DIAGRAM_RADIUS_value, CIRCLE_RADIUS_3.
Qed.

Lemma move_point_3_120 : move_point 3 120 = {| x := 788.39; y := 666.5 |}.
Proof.
  unfold move_point. rewrite point_args_slanted by lra. cbv zeta.
  destruct (Rltb_spec 120 90); [lra|]. destruct (Rltb_spec 120 180); [|lra].
  rewrite radians_30, sin_PI6, cos_PI6, hypotenuse_3, DIAGRAM_RADIUS_value.
  pose proof sqrt_3_bounds as Hs.
  unfold Point_init. f_equal.
  - rewrite (@rounded_near _ 78839) by lra. lra.
  - rewrite (@rounded_near _ 66650) by lra. lra.
Qed.

Lemma move_point_3_240 : move_point 3 240 = {| x := 211.61; y := 666.5 |}.
Proof.
  unfold move_point. rewrite point_args_slanted by lra. cbv zeta.
  destruct (Rltb_spec 240 90); [lra|]. destruct (Rltb_spec 240 180); [lra|].
  destruct (Rltb_spec 240 270); [|lra].
  rewrite radians_60, sin_PI3, cos_PI3, hypotenuse_3, DIAGRAM_RADIUS_value.
  pose proof sqrt_3_bounds as Hs.
  unfold Point_init. f_equal.
  - rewrite (@rounded_near _ 21161) by lra. lra.
  - rewrite (@rounded_near _ 66650) by lra. lra.
Qed.

Lemma move_point_north (n : nat) (angle : R) :
  angle = 0 \/ angle = 360 ->
  move_point n angle =
  {| x := IZR DIAGRAM_RADIUS; y := IZR (CIRCLE_RADIUS n) |}.
Proof.
  intros H. unfold move_point. rewrite point_args_north by assumption.
  apply Point_init_IZR.
Qed.

Lemma layout_3 :
  layout 3 = Ok [ {| x := 788.39; y := 666.5 |};
                  {| x := 211.61; y := 666.5 |};
                  {| x := 500; y := 167 |} ].
Proof.
  unfold layout. rewrite angles_3. cbn [bind map].
  rewrite move_point_3_120, move_point_3_240.
  rewrite (@move_point_north 3 360) by (now right).
  now rewrite DIAGRAM_RADIUS_value, CIRCLE_RADIUS_3.
Qed.

End SmallLayouts.

(** ** Where the points are *)

Section Placement.

Local Open Scope R_scope.

(** Whatever the number of moves, the first angle is one slice. *)
Lemma first_angle_is_a_slice (n : nat) (a : list R) :
  (0 < n)%nat -> angles n = Ok a -> nth_error a 0 = Some (360 / INR n).
Proof.
  intros Hn. rewrite angles_ok by assumption. intros [= <-].
  destruct n as [|n]; [lia|]. cbn [seq map nth_error]. f_equal.
  change (INR 1) with 1. lra.
Qed.

(** C4, on the game with default rules.  The three angles are 120, 240 and
    360 degrees: the point of move 0 is a slice past north, at
    (788.39, 666.5), and the north point (500, 167) is the last one, that of
    move 2. *)
Theorem first_point_is_a_slice_past_north :
  angles (length default_moves) = Ok [120; 240; 360] /\
  layout (length default_moves) =
    Ok [ {| x := 788.39; y := 666.5 |};
         {| x := 211.61; y := 666.5 |};
         {| x := 500; y := 167 |} ] /\
  move_point 3 0 = {| x := 500; y := 167 |} /\
  move_point 3 0 <> {| x := 788.39; y := 666.5 |}.
Proof.
  change (length default_moves) with 3%nat.
  split; [exact angles_3|]. split; [exact layout_3|].
  rewrite (@move_point_north 3 0) by (now left).
  rewrite DIAGRAM_RADIUS_value, CIRCLE_RADIUS_3.
  split; [reflexivity|]. intros [= Hx Hy]. lra.
Qed.


(** C6.  At an angle that is none of the four directions the two numbers
    handed to [Point] are got from [opposite = H * sin t] and
    [adjacent = H * cos t], where [H = R - r] and [t] is the angle modulo 90
    degrees in radians, with the signs and axes of the quadrant; before
    rounding they are at distance exactly [H] from the centre [(R, R)]. *)
Theorem slanted_point_on_circle (n : nat) (angle : R) :
  ~ In (fmod angle 360) [0; 90; 180; 270] ->
  let H := IZR (hypotenuse n) in
  let R := IZR DIAGRAM_RADIUS in
  let opposite := H * sin (radians (fmod angle 90)) in
  let adjacent := H * cos (radians (fmod angle 90)) in
  hypotenuse n = (DIAGRAM_RADIUS - CIRCLE_RADIUS n)%Z /\
  point_args n angle =
    (if Rltb angle 90 then (R + opposite, R - adjacent)
     else if Rltb angle 180 then (R + adjacent, R + opposite)
     else if Rltb angle 270 then (R - opposite, R + adjacent)
     else (R - adjacent, R - opposite)) /\
  move_point n angle =
    Point_init (fst (point_args n angle)) (snd (point_args n angle)) /\
  (fst (point_args n angle) - R) * (fst (point_args n angle) - R) +
  (snd (point_args n angle) - R) * (snd (point_args n angle) - R) = H * H.
Proof.
  intros Hnot H R opposite adjacent.
  assert (Hne : angle <> 0 /\ angle <> 360 /\ angle <> 90 /\
                angle <> 180 /\ angle <> 270).
  { repeat split; intros ->; apply Hnot.
    - rewrite fmod_small by lra. now left.
    - rewrite (@fmod_unique 360 360 1) by lra. left. lra.
    - rewrite fmod_small by lra. right. now left.
    - rewrite fmod_small by lra. right. right. now left.
    - rewrite fmod_small by lra. right. right. right. now left. }
  destruct Hne as (H0 & H360 & H90 & H180 & H270).
  split; [reflexivity|].
  assert (Hargs := @point_args_slanted n angle H0 H360 H90 H180 H270).
  cbv zeta in Hargs. fold H R opposite adjacent in Hargs.
  split; [exact Hargs|].
  split; [unfold move_point; now destruct (point_args n angle)|].
  rewrite Hargs. pose proof (sin_cos_circle H (radians (fmod angle 90))) as Hc.
  fold opposite adjacent in Hc.
  destruct (Rltb angle 90); [|destruct (Rltb angle 180);
    [|destruct (Rltb angle 270)]]; cbn [fst snd]; lra.
Qed.

Lemma slanted_point_on_circle_witness :
  (fst (point_args 3 120) - IZR DIAGRAM_RADIUS) *
  (fst (point_args 3 120) - IZR DIAGRAM_RADIUS) +
  (snd (point_args 3 120) - IZR DIAGRAM_RADIUS) *
  (snd (point_args 3 120) - IZR DIAGRAM_RADIUS) =
  IZR (hypotenuse 3) * IZR (hypotenuse 3).
Proof.
  apply (@slanted_point_on_circle 3 120).
  rewrite fmod_small by lra.
  intros [H|[H|[H|[H|[]]]]]; lra.
Defined.

End Placement.

Lemma layout_points_rounded (n : nat) (pts : list Point) (p : Point) :
  layout n = Ok pts -> In p pts ->
  two_decimals (x p) /\ two_decimals (y p) /\ Point_init (x p) (y p) = p.
Proof.
  unfold layout. destruct (angles n) as [a|e]; [|discriminate].
  cbn [bind]. intros [= <-] Hp. apply in_map_iff in Hp.
  destruct Hp as (angle & <- & _). unfold move_point.
  destruct (point_args n angle) as [a0 b0]. cbn [x y Point_init].
  repeat split; try apply rounded_two_decimals.
  unfold Point_init. now rewrite !rounded_idempotent.
Qed.

(** C7.  The points of a layout have both coordinates rounded to two
    decimal places when they are built, each within 0.005 of the number
    handed in, building a point again from its coordinates changes nothing,
    and the points of the finished diagram are the points of the layout. *)
Theorem points_rounded_when_built (n : nat) (pts : list Point) :
  layout n = Ok pts ->
  (forall a b : R,
     let p := Point_init a b in
     (two_decimals (x p) /\ (Rabs (x p - a) <= 1 / 200)%R) /\
     (two_decimals (y p) /\ (Rabs (y p - b) <= 1 / 200)%R)) /\
  Forall (fun p => two_decimals (x p) /\ two_decimals (y p) /\
                   Point_init (x p) (y p) = p) pts /\
  (forall objs sc d,
     length objs = n -> Diagram_init objs = (sc, Ok d) ->
     diagram_points d = pts).
Proof.
  intros Hlay. split; [|split].
  - intros a b p. subst p. cbn [x y Point_init].
    repeat split; auto using rounded_two_decimals, rounded_error.
  - apply Forall_forall. intros p Hp.
    exact (@layout_points_rounded n pts p Hlay Hp).
  - intros objs sc d Hlen. unfold Diagram_init. rewrite Hlen, Hlay.
    destruct (assemble objs pts) as [sc' [u|e]]; [|discriminate].
    now intros [= _ <-].
Qed.

Lemma points_rounded_when_built_witness :
  Forall (fun p => two_decimals (x p) /\ two_decimals (y p) /\
                   Point_init (x p) (y p) = p)
    [ {| x := 788.39; y := 666.5 |}; {| x := 211.61; y := 666.5 |};
      {| x := 500; y := 167 |} ].
Proof.
  apply (@points_rounded_when_built 3). exact layout_3.
Defined.

(** ** The drawing loop *)

Section Drawing.

Variable objs : list Move.
Variable pts : list Point.

Hypothesis targets_are_points :
  forall m t, In m objs -> In t (beats_num m) -> t < length pts.

Lemma scene_eta (sc : scene) :
  {| printed := printed sc; defs := defs sc; elements := elements sc |} = sc.
Proof. now destruct sc. Qed.

Lemma draw_lines_ok (point : Point) (targets : list nat) (sc : scene) :
  (forall t, In t targets -> t < length pts) ->
  draw_lines pts point targets sc =
  ({| printed := printed sc; defs := defs sc;
      elements := elements sc
        ++ map (fun t => line point (nth t pts point) "black") targets |},
   Ok tt).
Proof.
  revert sc. induction targets as [|t rest IH]; intros sc Hlt; cbn [draw_lines map].
  - now rewrite app_nil_r, scene_eta.
  - unfold getitem.
    rewrite (nth_error_nth' pts point) by (apply Hlt; now left).
    rewrite IH by (intros; apply Hlt; now right).
    unfold add. cbn [printed defs elements]. now rewrite <- app_assoc.
Qed.

Lemma draw_move_ok (i : nat) (point : Point) (sc : scene) (m : Move) :
  nth_error objs i = Some m ->
  draw_move objs pts i point sc =
  ({| printed := printed sc ++ [print_move m]; defs := defs sc;
      elements := elements sc ++ shapes objs pts (i, point) |},
   Ok tt).
Proof.
  intros Hm. unfold draw_move, getitem, shapes. cbn [fst snd]. rewrite Hm.
  rewrite draw_lines_ok
    by (intros t Ht; eapply targets_are_points;
        [eapply nth_error_In|]; eassumption).
  unfold add, say. cbn [printed defs elements]. now rewrite <- !app_assoc.
Qed.

Lemma skipn_nth_error {A} (l : list A) (s : nat) (a : A) :
  nth_error l s = Some a -> skipn s l = a :: skipn (S s) l.
Proof.
  revert l. induction s as [|s IH]; intros [|b l]; cbn; try discriminate.
  - now intros [= ->].
  - intros H. now apply IH.
Qed.

Lemma draw_moves_ok (ps : list Point) :
  forall (s : nat) (sc : scene),
    s + length ps <= length objs ->
    draw_moves objs pts (combine (seq s (length ps)) ps) sc =
    ({| printed := printed sc
          ++ map print_move (firstn (length ps) (skipn s objs));
        defs := defs sc;
        elements := elements sc
          ++ flat_map (shapes objs pts) (combine (seq s (length ps)) ps) |},
     Ok tt).
Proof.
  induction ps as [|p ps IH]; intros s sc Hle;
    cbn [length seq combine draw_moves flat_map firstn map].
  - now rewrite !app_nil_r, scene_eta.
  - cbn [length] in Hle.
    destruct (nth_error objs s) as [m|] eqn:Hm;
      [|apply nth_error_None in Hm; lia].
    rewrite (@draw_move_ok s p sc m Hm), IH by lia.
    rewrite (@skipn_nth_error _ objs s m Hm).
    cbn [printed defs elements firstn map].
    now rewrite <- !app_assoc.
Qed.

Hypothesis same_length : length pts = length objs.

Lemma check_count_quiet (sc : scene) : check_count objs pts sc = sc.
Proof.
  unfold check_count. destruct (Nat.ltb_spec (length objs) (length pts)); [lia|].
  reflexivity.
Qed.

Lemma assemble_ok : assemble objs pts = (drawn objs pts, Ok tt).
Proof.
  unfold assemble, enumerate. rewrite check_count_quiet.
  rewrite draw_moves_ok by lia. reflexivity.
Qed.

End Drawing.

(** A diagram of moves whose targets are in range is drawn to its end. *)
Lemma Diagram_init_ok (objs : list Move) :
  objs <> [] -> targets_in_range objs ->
  exists pts,
    layout (length objs) = Ok pts /\ length pts = length objs /\
    Diagram_init objs = (drawn objs pts, Ok (mkDiagram (drawn objs pts) pts)).
Proof.
  intros Hne Hin.
  assert (Hpos : 0 < length objs) by (destruct objs; [congruence|cbn; lia]).
  pose proof (layout_ok Hpos) as Hlay.
  eexists. split; [exact Hlay|].
  pose proof (layout_length _ Hlay) as Hlen. split; [exact Hlen|].
  unfold Diagram_init. rewrite Hlay, assemble_ok; [reflexivity| |exact Hlen].
  intros m t Hm Ht. rewrite Hlen. now apply (Hin m).
Qed.

Lemma Game_targets_in_range (filename : string) (rows : list (list string))
    (log : list string) (g : Game) :
  Game_init filename rows = (log, Ok g) ->
  move_objs g <> [] /\ targets_in_range (move_objs g).
Proof.
  intros Hinit. destruct (Game_init_moves _ _ Hinit) as (Hodd & H3 & Hnum).
  split.
  - intros E. rewrite E in H3. cbn in H3. lia.
  - intros m t Hm Ht. apply In_nth_error in Hm. destruct Hm as [i Hi].
    rewrite (Hnum _ _ Hi) in Ht. apply in_map_iff in Ht.
    destruct Ht as (o & <- & _). apply Nat.mod_upper_bound. lia.
Qed.

(** ** Lists of lists *)

Lemma filter_flat_map {A B} (p : B -> bool) (f : A -> list B) (l : list A) :
  filter p (flat_map f l) = flat_map (fun a => filter p (f a)) l.
Proof.
  induction l as [|a l IH]; [reflexivity|].
  cbn [flat_map]. now rewrite filter_app, IH.
Qed.

Lemma map_flat_map {A B C} (g : B -> C) (f : A -> list B) (l : list A) :
  map g (flat_map f l) = flat_map (fun a => map g (f a)) l.
Proof.
  induction l as [|a l IH]; [reflexivity|].
  cbn [flat_map]. now rewrite map_app, IH.
Qed.

Lemma flat_map_of_map {A B C} (f : B -> list C) (g : A -> B) (l : list A) :
  flat_map f (map g l) = flat_map (fun a => f (g a)) l.
Proof.
  induction l as [|a l IH]; [reflexivity|]. cbn [map flat_map]. now rewrite IH.
Qed.

Lemma flat_map_ext_in {A B} (f g : A -> list B) (l : list A) :
  (forall a, In a l -> f a = g a) -> flat_map f l = flat_map g l.
Proof.
  induction l as [|a l IH]; intros H; [reflexivity|].
  cbn [flat_map]. rewrite (H a (or_introl eq_refl)), IH; [reflexivity|].
  intros b Hb. apply H. now right.
Qed.

Lemma flat_map_singleton {A B} (f : A -> B) (l : list A) :
  flat_map (fun a => [f a]) l = map f l.
Proof. induction l as [|a l IH]; [reflexivity|]. cbn. now rewrite IH. Qed.

Lemma length_flat_map_const {A B} (f : A -> list B) (l : list A) (c : nat) :
  (forall a, In a l -> length (f a) = c) ->
  length (flat_map f l) = length l * c.
Proof.
  induction l as [|a l IH]; intros H; [reflexivity|].
  cbn [flat_map length]. rewrite length_app, IH, (H a (or_introl eq_refl)).
  - lia.
  - intros b Hb. apply H. now right.
Qed.

Lemma enumerate_seq {A} (l : list A) (d : A) :
  enumerate l = map (fun i => (i, nth i l d)) (seq 0 (length l)).
Proof.
  apply nth_error_ext. intros k.
  rewrite nth_error_enumerate, nth_error_map, nth_error_seq.
  destruct (Nat.ltb_spec k (length l)) as [Hlt|Hge]; cbn [option_map].
  - now rewrite (nth_error_nth' l d Hlt).
  - apply nth_error_None in Hge. now rewrite Hge.
Qed.

Lemma combine_seq {A B} (l : list A) (l' : list B) (d : A) (d' : B) :
  length l = length l' ->
  combine l l' = map (fun i => (nth i l d, nth i l' d')) (seq 0 (length l)).
Proof.
  revert l'. induction l as [|a l IH]; intros [|b l'] Hlen;
    try discriminate; [reflexivity|].
  cbn [combine length seq map nth]. f_equal.
  rewrite (IH l') by (cbn in Hlen; lia).
  rewrite <- seq_shift, map_map. reflexivity.
Qed.

Lemma In_enumerate {A} (l : list A) (i : nat) (a : A) :
  In (i, a) (enumerate l) <-> nth_error l i = Some a.
Proof.
  split.
  - intros H. apply In_nth_error in H. destruct H as [k Hk].
    rewrite nth_error_enumerate in Hk.
    destruct (nth_error l k) as [a'|] eqn:E; [|discriminate].
    injection Hk as <- <-. exact E.
  - intros H. apply nth_error_In with i.
    now rewrite nth_error_enumerate, H.
Qed.

Lemma NoDup_flat_map_pairs {B} (f : nat -> list B) (l : list nat) :
  NoDup l -> (forall a, In a l -> NoDup (f a)) ->
  NoDup (flat_map (fun a => map (pair a) (f a)) l).
Proof.
  induction 1 as [|a l Hnin Hnd IH]; intros Hf; [constructor|].
  cbn [flat_map]. apply NoDup_app.
  - apply Finite.Injective_map_NoDup; [|apply Hf; now left].
    intros b b' [= ->]. reflexivity.
  - apply IH. intros b Hb. apply Hf. now right.
  - intros [a' b] H1 H2. apply in_map_iff in H1. destruct H1 as (b' & [= <- <-] & _).
    apply in_flat_map in H2. destruct H2 as (a'' & Ha'' & H2).
    apply in_map_iff in H2. destruct H2 as (b'' & [= -> _] & _). contradiction.
Qed.

(** ** The edges *)

Section Edges.

Variable objs : list Move.

Lemma edges_seq :
  edges objs =
  flat_map (fun i => map (pair i) (beats_num (nth i objs no_move)))
           (seq 0 (length objs)).
Proof.
  unfold edges. rewrite (enumerate_seq objs no_move), flat_map_of_map.
  reflexivity.
Qed.

Lemma In_edges (i j : nat) :
  In (i, j) (edges objs) <-> beats_index objs i j = true.
Proof.
  unfold edges, beats_index. rewrite in_flat_map. split.
  - intros ([i' m] & Him & Hin). cbn [fst snd] in Hin.
    apply in_map_iff in Hin. destruct Hin as (j' & [= -> ->] & Hj).
    apply In_enumerate in Him. rewrite Him. apply existsb_exists.
    exists j. split; [assumption|apply Nat.eqb_refl].
  - destruct (nth_error objs i) as [m|] eqn:Hm; [|discriminate].
    intros H. apply existsb_exists in H. destruct H as (j' & Hj & E).
    apply Nat.eqb_eq in E. subst j'.
    exists (i, m). split; [now apply In_enumerate|].
    cbn [fst snd]. apply in_map_iff. now exists j.
Qed.

Lemma NoDup_edges :
  (forall m, In m objs -> NoDup (beats_num m)) -> NoDup (edges objs).
Proof.
  intros H. rewrite edges_seq.
  apply NoDup_flat_map_pairs; [apply seq_NoDup|].
  intros i Hi. apply in_seq in Hi. apply H, nth_In. lia.
Qed.

Lemma length_edges (c : nat) :
  (forall m, In m objs -> length (beats_num m) = c) ->
  length (edges objs) = length objs * c.
Proof.
  intros H. unfold edges.
  rewrite (@length_flat_map_const _ _ _ (enumerate objs) c).
  - unfold enumerate. rewrite length_combine, length_seq. lia.
  - intros [i m] Him. rewrite length_map. apply H.
    apply In_enumerate in Him. eapply nth_error_In; eassumption.
Qed.

Variable pts : list Point.

Hypothesis same_length : length pts = length objs.
Hypothesis targets_are_points :
  forall m t, In m objs -> In t (beats_num m) -> t < length pts.

Lemma filter_lines (p : Point) (f : nat -> Point) (l : list nat) :
  filter is_line (map (fun t => line p (f t) "black") l) =
  map (fun t => line p (f t) "black") l.
Proof. induction l as [|t l IH]; [reflexivity|]. cbn. now rewrite IH. Qed.

Lemma lines_of_shapes (i : nat) :
  i < length objs ->
  filter is_line (shapes objs pts (i, nth i pts origin)) =
  map (line_of pts) (map (pair i) (beats_num (nth i objs no_move))).
Proof.
  intros Hi. unfold shapes. cbn [fst snd].
  rewrite (nth_error_nth' objs no_move Hi).
  rewrite filter_app, filter_lines. cbn [filter is_line].
  rewrite app_nil_r, map_map.
  apply map_ext_in. intros t Ht. unfold line_of. cbn [fst snd]. f_equal.
  apply nth_indep. apply (targets_are_points (nth i objs no_move));
    [apply nth_In; exact Hi|exact Ht].
Qed.

Lemma texts_of_shapes (i : nat) :
  i < length objs ->
  filter is_text (shapes objs pts (i, nth i pts origin)) =
  [text (move (nth i objs no_move)) (downshifted objs (nth i pts origin))
        "middle" (px (text_length_px objs (move (nth i objs no_move))))
        "spacingAndGlyphs"].
Proof.
  intros Hi. unfold shapes. cbn [fst snd].
  rewrite (nth_error_nth' objs no_move Hi), filter_app.
  cbn [filter is_text].
  induction (beats_num (nth i objs no_move)) as [|t l IH]; [reflexivity|].
  exact IH.
Qed.

(** The lines of the finished scene are the edges, in their order. *)
Lemma drawn_lines :
  filter is_line (elements (drawn objs pts)) = map (line_of pts) (edges objs).
Proof.
  unfold drawn. cbn [elements]. rewrite filter_app. cbn [filter is_line app].
  rewrite filter_flat_map, (enumerate_seq pts origin), flat_map_of_map.
  rewrite edges_seq, map_flat_map, same_length.
  apply flat_map_ext_in. intros i Hi. apply in_seq in Hi.
  apply lines_of_shapes. lia.
Qed.

(** The legends of the finished scene, one for each move and its point. *)
Lemma drawn_texts :
  filter is_text (elements (drawn objs pts)) =
  map (fun mp => text (move (fst mp)) (downshifted objs (snd mp)) "middle"
                      (px (text_length_px objs (move (fst mp))))
                      "spacingAndGlyphs")
      (combine objs pts).
Proof.
  unfold drawn. cbn [elements]. rewrite filter_app. cbn [filter is_text app].
  rewrite filter_flat_map, (enumerate_seq pts origin), flat_map_of_map.
  rewrite (@combine_seq _ _ objs pts no_move origin) by auto.
  rewrite map_map, same_length. cbn [fst snd].
  rewrite <- flat_map_singleton.
  apply flat_map_ext_in. intros i Hi. apply in_seq in Hi.
  apply texts_of_shapes. lia.
Qed.

End Edges.

Lemma odd_triangle (N : nat) : N mod 2 = 1 -> N * (N - 1) / 2 = N * ((N - 1) / 2).
Proof.
  intros H.
  assert (E : N - 1 = 2 * ((N - 1) / 2)) by lia.
  rewrite E at 1. rewrite Nat.mul_assoc, (Nat.mul_comm N 2), <- Nat.mul_assoc.
  rewrite Nat.mul_comm, Nat.div_mul by discriminate. reflexivity.
Qed.

(** ** The edges of the diagram *)

(** C8.  Every catalog with an odd number [N] of moves, three at least,
    that is, every file with [N] non-empty rows, is built by
    [Game.__init__] into [N] moves whose diagram is drawn to its end with
    [N] points; its lines are the edges [(i, j)] with [j] in the index-keyed
    list of move [i], one line for each, there are [N * (N - 1) / 2] of them,
    no edge occurs twice, and of two different moves exactly one of the two
    directions is an edge. *)
Theorem diagram_edges (filename : string) (rows : list (list string)) :
  let named := filter (fun row => negb (length row =? 0)) rows in
  let N := length named in
  N mod 2 = 1 -> 3 <= N ->
  exists g sc d,
    Game_init filename rows =
      ([("Starting game with rules from " ++ filename ++ ".")%string], Ok g) /\
    let objs := move_objs g in
    length objs = N /\ map move objs = map (hd "") named /\
    Diagram_init objs = (sc, Ok d) /\
    length (diagram_points d) = N /\
    filter is_line (elements sc) = map (line_of (diagram_points d)) (edges objs) /\
    length (filter is_line (elements sc)) = N * (N - 1) / 2 /\
    NoDup (edges objs) /\
    (forall i j, In (i, j) (edges objs) <->
                 exists m, nth_error objs i = Some m /\ In j (beats_num m)) /\
    (forall i j, i < N -> j < N -> i <> j ->
       (In (i, j) (edges objs) /\ ~ In (j, i) (edges objs)) \/
       (In (j, i) (edges objs) /\ ~ In (i, j) (edges objs))).
Proof.
  intros named N Hodd0 H30.
  pose proof (read_moves_valid rows Hodd0 H30) as Hread. fold named in Hread.
  destruct (@Game_init_ok filename _ _ Hread) as (g & Hinit & HlenN & _).
  pose proof (@Game_init_names filename rows named _ g Hread Hinit) as Hnames.
  set (objs := move_objs g) in *. fold N in HlenN.
  destruct (Game_init_moves _ _ Hinit) as (Hodd & H3 & Hnum).
  destruct (Game_targets_in_range _ _ Hinit) as (Hne & Hrange).
  fold objs in Hodd, H3, Hnum, Hne, Hrange.
  destruct (Diagram_init_ok Hne Hrange) as (pts & Hlay & Hlen & Hrun).
  assert (Hpts : forall m t, In m objs -> In t (beats_num m) -> t < length pts)
    by (intros m t Hm Ht; rewrite Hlen; now apply (Hrange m)).
  assert (Hshape : forall m, In m objs ->
            length (beats_num m) = (length objs - 1) / 2 /\ NoDup (beats_num m)).
  { intros m Hm. apply In_nth_error in Hm. destruct Hm as [i Hi].
    destruct (beats_num_shape objs Hodd Hnum _ Hi) as (Hl & Hnd & _).
    now split. }
  exists g, (drawn objs pts), (mkDiagram (drawn objs pts) pts).
  cbn [diagram_points].
  split; [exact Hinit|]. cbv zeta. fold objs.
  split; [exact HlenN|]. split; [exact Hnames|].
  split; [exact Hrun|]. rewrite <- HlenN. split; [exact Hlen|].
  rewrite (@drawn_lines objs pts Hlen Hpts).
  split; [reflexivity|]. split.
  - rewrite length_map, (@length_edges objs ((length objs - 1) / 2)), odd_triangle;
      [reflexivity|exact Hodd|intros m Hm; now apply Hshape].
  - split; [apply NoDup_edges; intros m Hm; now apply Hshape|]. split.
    + intros i j. rewrite In_edges. unfold beats_index.
      destruct (nth_error objs i) as [m|]; split.
      * intros H. apply existsb_exists in H. destruct H as (j' & Hj & E).
        apply Nat.eqb_eq in E. subst j'. now exists m.
      * intros (m' & [= <-] & Hj). apply existsb_exists.
        exists j. split; [assumption|apply Nat.eqb_refl].
      * discriminate.
      * intros (m' & Hm' & _). discriminate.
    + intros i j Hi Hj Hij. rewrite !In_edges.
      destruct (beats_decided objs Hodd Hnum Hi Hj Hij) as [H|H];
        [left|right]; (split; [exact H|]);
        rewrite (beats_one_way objs Hodd Hnum _ _ H); discriminate.
Qed.

Lemma diagram_edges_witness :
  exists g sc d,
    Game_init "rules.csv"
      [["Axe"; "chops"; "carves"]; ["Bow"]; []; ["Cat"; "claws"]; ["Dog"];
       ["Elk"; "gores"; "tramples"]]
    = (["Starting game with rules from rules.csv."], Ok g) /\
    length (move_objs g) = 5 /\
    Diagram_init (move_objs g) = (sc, Ok d) /\
    length (diagram_points d) = 5 /\
    filter is_line (elements sc) =
      map (line_of (diagram_points d)) (edges (move_objs g)) /\
    length (filter is_line (elements sc)) = 10.
Proof.
  destruct (@diagram_edges "rules.csv"
              [["Axe"; "chops"; "carves"]; ["Bow"]; []; ["Cat"; "claws"];
               ["Dog"]; ["Elk"; "gores"; "tramples"]])
    as (g & sc & d & H1 & H2 & _ & H3 & H4 & H5 & H6 & _);
    [reflexivity|cbn; lia|].
  exists g, sc, d. repeat split; assumption.
Defined.

(** ** The legends *)

Section Legends.

Local Open Scope R_scope.

Lemma default_moves_value :
  default_moves =
  [ mkMove "Scissors" [("Paper", "cuts")] 0 [1%nat];
    mkMove "Paper" [("Rock", "wraps")] 1 [2%nat];
    mkMove "Rock" [("Scissors", "blunts")] 2 [0%nat] ].
Proof. reflexivity. Qed.

Lemma default_moves_in_range : targets_in_range default_moves.
Proof.
  rewrite default_moves_value. intros m t Hm Ht.
  destruct Hm as [<-|[<-|[<-|[]]]]; destruct Ht as [<-|[]]; cbn; lia.
Qed.

(** [round] of a fraction is a matter of integers. *)
Lemma round_fraction (p q : Z) :
  (0 < q)%Z -> round (IZR p / IZR q) = round_div p q.
Proof.
  intros Hq. unfold round, round_div.
  assert (HQ : 0 < IZR q) by (now apply IZR_lt).
  pose proof (Z.mod_pos_bound p q Hq) as Hm.
  assert (Hm0 : 0 <= IZR (p mod q)) by (apply IZR_le; lia).
  assert (Hm1 : IZR (p mod q) < IZR q) by (apply IZR_lt; lia).
  set (d := IZR (p mod q) / IZR q).
  assert (Hd : IZR (p mod q) = d * IZR q) by (unfold d; field; lra).
  assert (E : IZR p / IZR q = IZR (p / q) + d).
  { unfold d. rewrite (Z.div_mod p q) at 1 by lia.
    rewrite plus_IZR, mult_IZR. field. lra. }
  assert (Hd01 : 0 <= d < 1) by (split; nra).
  rewrite (@Int_part_unique (IZR p / IZR q) (p / q)) by lra.
  replace (IZR p / IZR q - IZR (p / q)) with d by lra.
  assert (H2 : IZR (2 * (p mod q)) = 2 * d * IZR q)
    by (rewrite mult_IZR; lra).
  destruct (Z.ltb_spec (2 * (p mod q)) q) as [Hlt|Hge].
  - apply IZR_lt in Hlt. rewrite H2 in Hlt.
    destruct (Rltb_spec d (1 / 2)); [reflexivity|nra].
  - apply IZR_le in Hge. rewrite H2 in Hge.
    destruct (Rltb_spec d (1 / 2)); [nra|].
    destruct (Z.ltb_spec q (2 * (p mod q))) as [Hgt|Hle].
    + apply IZR_lt in Hgt. rewrite H2 in Hgt.
      destruct (Rltb_spec (1 / 2) d); [reflexivity|nra].
    + apply IZR_le in Hle. rewrite H2 in Hle.
      destruct (Rltb_spec (1 / 2) d); [nra|reflexivity].
Qed.

Lemma fraction_denominator (f : PrimFloat.float) :
  (0 < snd (Double.fraction f))%Z.
Proof.
  unfold Double.fraction. destruct (Prim2SF f) as [| | |s m e]; cbn; try lia.
  destruct (Z.leb_spec 0 e); cbn [snd]; [lia|].
  apply Z.pow_pos_nonneg; lia.
Qed.

(** [rounded] of a double, in hundredths. *)
Lemma rounded_value (f : PrimFloat.float) :
  rounded (Double.value f) =
  IZR (round_div (100 * fst (Double.fraction f)) (snd (Double.fraction f)))
  / 100.
Proof.
  pose proof (fraction_denominator f) as Hq.
  rewrite rounded_unfold. unfold Double.value.
  destruct (Double.fraction f) as [p q]. cbn [fst snd] in *.
  assert (HQ : 0 < IZR q) by (now apply IZR_lt).
  replace (IZR p / IZR q * 100) with (IZR (100 * p) / IZR q)
    by (rewrite mult_IZR; field; lra).
  now rewrite round_fraction.
Qed.

(** The width of a legend is the one computed on the doubles, for the
    number of characters of the name, 12 at most, and the radius of the
    markers. *)
Lemma text_length_px_hundredths (objs : list Move) (name : string) :
  text_length_px objs name =
  IZR (width_hundredths (Z.of_nat (Nat.min (len name) 12))
                        (CIRCLE_RADIUS (length objs))) / 100.
Proof.
  unfold text_length_px, width_hundredths, max_text_len.
  replace (if (12 <? len name)%nat then 12%nat else len name)
    with (Nat.min (len name) 12)
    by (destruct (Nat.ltb_spec 12 (len name)); lia).
  change (Z.of_nat 12) with 12%Z.
  rewrite rounded_value.
  destruct (Double.fraction _) as [p q]. reflexivity.
Qed.

Lemma widths_near_fit_true : widths_near_fit = true.
Proof. vm_compute. reflexivity. Qed.

Lemma width_hundredths_near (k r : Z) :
  (0 <= k <= 12)%Z -> (0 <= r <= 500)%Z ->
  (-3 <= 6 * width_hundredths k r - 95 * k * r <= 3)%Z.
Proof.
  intros Hk Hr. pose proof widths_near_fit_true as H.
  unfold widths_near_fit in H.
  assert (Hik : In (Z.to_nat k) (seq 0 13)) by (apply in_seq; lia).
  assert (Hir : In (Z.to_nat r) (seq 0 501)) by (apply in_seq; lia).
  pose proof (proj1 (forallb_forall _ _) H _ Hik) as H1. cbv beta in H1.
  pose proof (proj1 (forallb_forall _ _) H1 _ Hir) as H2. cbv beta zeta in H2.
  rewrite !Z2Nat.id in H2 by lia. apply Z.leb_le in H2. lia.
Qed.

(** The width drawn has two decimal places and is within half a hundredth
    of the fitted width. *)
Lemma text_length_px_near (objs : list Move) (name : string) :
  objs <> [] ->
  let r := IZR (CIRCLE_RADIUS (length objs)) in
  two_decimals (text_length_px objs name) /\
  - (1 / 200) <= text_length_px objs name - fitted_width name r <= 1 / 200.
Proof.
  intros Hne r.
  assert (Hn : (0 < length objs)%nat) by (destruct objs; [congruence|cbn; lia]).
  pose proof (CIRCLE_RADIUS_bounds Hn) as Hr.
  rewrite text_length_px_hundredths. unfold fitted_width.
  set (k := Nat.min (len name) 12).
  assert (Hk : (0 <= Z.of_nat k <= 12)%Z) by (unfold k; lia).
  pose proof (width_hundredths_near Hk Hr) as [Hlo Hhi].
  set (z := width_hundredths (Z.of_nat k) (CIRCLE_RADIUS (length objs))) in *.
  split; [now exists z|].
  apply IZR_le in Hlo, Hhi.
  rewrite minus_IZR, !mult_IZR in Hlo, Hhi. fold r in Hlo, Hhi.
  rewrite INR_IZR_INZ. lra.
Qed.

(** C9, as the code has it.  For every list of moves that can be drawn, the
    legends of the finished diagram are, move by move, the name of the move,
    put at the [x] of the point and at its [y] plus [textSize / 4], that sum
    rounded to two decimal places, where [textSize = r / 3]; the width the
    name is fitted to is the product [1.9 * r * (min(len(name), 12) / 12)]
    rounded to two decimal places, a number of hundredths that is no more
    than half a hundredth away from [min(len(name), 12) / 12 * 1.9 * r]. *)
Theorem legends_fitted_and_rounded (objs : list Move) :
  objs <> [] -> targets_in_range objs ->
  let r := IZR (CIRCLE_RADIUS (length objs)) in
  let textSize := r / 3 in
  exists sc d,
    Diagram_init objs = (sc, Ok d) /\
    filter is_text (elements sc) =
    map (fun mp =>
           text (move (fst mp))
                (x (snd mp), rounded (y (snd mp) + textSize / 4)) "middle"
                (px (text_length_px objs (move (fst mp)))) "spacingAndGlyphs")
        (combine objs (diagram_points d)) /\
    forall m, In m objs ->
      two_decimals (text_length_px objs (move m)) /\
      - (1 / 200)
      <= text_length_px objs (move m) - fitted_width (move m) r
      <= 1 / 200.
Proof.
  intros Hne Hrange r textSize.
  destruct (Diagram_init_ok Hne Hrange) as (pts & Hlay & Hlen & Hrun).
  exists (drawn objs pts), (mkDiagram (drawn objs pts) pts).
  split; [exact Hrun|]. cbn [diagram_points]. split.
  - rewrite (@drawn_texts objs pts Hlen).
    apply map_ext_in. intros [m p] Hmp. cbn [fst snd].
    apply in_combine_r in Hmp.
    destruct (@layout_points_rounded _ pts p Hlay Hmp) as (Hx & _ & _).
    unfold downshifted, text_size.
    now rewrite (rounded_fixed Hx).
  - intros m _. now apply text_length_px_near.
Qed.

Lemma legends_fitted_and_rounded_witness :
  exists sc d,
    Diagram_init default_moves = (sc, Ok d) /\
    forall m, In m default_moves ->
      - (1 / 200)
      <= text_length_px default_moves (move m)
         - fitted_width (move m) (IZR (CIRCLE_RADIUS (length default_moves)))
      <= 1 / 200.
Proof.
  destruct (@legends_fitted_and_rounded default_moves)
    as (sc & d & Hrun & _ & Hfit).
  - rewrite default_moves_value. discriminate.
  - exact default_moves_in_range.
  - exists sc, d. split; [exact Hrun|]. intros m Hm. now apply Hfit.
Defined.

Lemma width_of_rock : width_hundredths 4 167 = 10577%Z.
Proof. vm_compute. reflexivity. Qed.

(** A name of three characters with three moves: the fitted width 79.325
    is half way between two hundredths, and the double product, a little
    above it, goes up to 79.33. *)
Example width_at_a_tie :
  width_hundredths 3 167 = 7933%Z /\ fitted_width "Axe" 167 = 79.325.
Proof.
  split; [vm_compute; reflexivity|].
  unfold fitted_width. change (Nat.min (len "Axe") 12) with 3%nat.
  cbn [INR]. lra.
Qed.

(** In the diagram of the game with default rules the legend of Rock, at the
    north point (500, 167), is fitted to 105.77 pixels and put at
    (500, 180.92): neither is the unrounded number. *)
Lemma rock_legend_is_rounded :
  exists sc d,
    Diagram_init default_moves = (sc, Ok d) /\
    In (text "Rock" (500, 180.92) "middle" (px 105.77) "spacingAndGlyphs")
       (elements sc) /\
    105.77 <> fitted_width "Rock" (IZR (CIRCLE_RADIUS (length default_moves))) /\
    180.92 <> 167 + IZR (CIRCLE_RADIUS (length default_moves)) / 3 / 4.
Proof.
  destruct (Diagram_init_ok (objs := default_moves)) as (pts & Hlay & Hlen & Hrun).
  { rewrite default_moves_value. discriminate. }
  { exact default_moves_in_range. }
  change (length default_moves) with 3%nat in *.
  rewrite layout_3 in Hlay. injection Hlay as <-.
  eexists. eexists. split; [exact Hrun|].
  rewrite CIRCLE_RADIUS_3. unfold fitted_width.
  change (Nat.min (len "Rock") 12) with 4%nat. cbn [INR].
  split; [|split; lra].
  cut (In (text "Rock" (500, 180.92) "middle" (px 105.77) "spacingAndGlyphs")
          (filter is_text (elements (drawn default_moves
             [ {| x := 788.39; y := 666.5 |}; {| x := 211.61; y := 666.5 |};
               {| x := 500; y := 167 |} ])))).
  { intros H. apply filter_In in H. exact (proj1 H). }
  rewrite (@drawn_texts default_moves _ Hlen), default_moves_value.
  cbn [combine map fst snd move]. right. right. left.
  rewrite <- default_moves_value.
  unfold downshifted, text_size. cbn [x y].
  rewrite text_length_px_hundredths.
  change (length default_moves) with 3%nat.
  rewrite CIRCLE_RADIUS_3.
  change (Z.of_nat (Nat.min (len "Rock") 12)) with 4%Z.
  rewrite width_of_rock.
  rewrite rounded_IZR.
  rewrite (@rounded_near (167 + 167 / 3 / 4) 18092) by lra.
  repeat f_equal; lra.
Qed.

End Legends.

(** ** As many points as moves *)

Lemma printed_moves_only (objs : list Move) (pts : list Point) :
  ~ In too_many_circles (printed (drawn objs pts)).
Proof.
  unfold drawn. cbn [printed]. intros H. apply in_map_iff in H.
  destruct H as (m & Hm & _). discriminate.
Qed.

(** C10.  For an odd number [n] of moves, three at least, the angles are
    [n] in number and so are the points; the check on the number of points
    is then silent, and the diagram of [n] moves is drawn to its end without
    the message.  Where there are more points than moves, the check does no
    more than print the message: the scene is otherwise left as it was, and
    the drawing loop is then entered with all the points computed. *)
Theorem as_many_points_as_moves (n : nat) :
  n mod 2 = 1 -> 3 <= n ->
  exists a pts,
    (angles n = Ok a /\ length a = n) /\
    (layout n = Ok pts /\ length pts = n) /\
    (forall objs sc, length objs = n -> check_count objs pts sc = sc) /\
    (forall objs, length objs = n -> targets_in_range objs ->
       exists sc d, Diagram_init objs = (sc, Ok d) /\
                    ~ In too_many_circles (printed sc)) /\
    (forall objs' pts' sc, length objs' < length pts' ->
       check_count objs' pts' sc = say too_many_circles sc /\
       defs (check_count objs' pts' sc) = defs sc /\
       elements (check_count objs' pts' sc) = elements sc /\
       exists sc0,
         printed sc0 = [too_many_circles] /\
         assemble objs' pts' = draw_moves objs' pts' (enumerate pts') sc0).
Proof.
  intros Hodd H3.
  assert (Hpos : 0 < n) by lia.
  pose proof (angles_ok Hpos) as Ha. pose proof (layout_ok Hpos) as Hl.
  eexists. eexists.
  split; [split; [exact Ha|now rewrite length_map, length_seq]|].
  split; [split; [exact Hl|now rewrite length_map, length_seq]|].
  split; [|split].
  - intros objs sc Hlen. apply check_count_quiet.
    now rewrite length_map, length_seq.
  - intros objs Hlen Hrange.
    destruct (@Diagram_init_ok objs) as (pts & _ & _ & Hrun);
      [intros ->; cbn in Hlen; lia|exact Hrange|].
    eexists. eexists. split; [exact Hrun|apply printed_moves_only].
  - intros objs' pts' sc Hlt. unfold assemble, check_count.
    destruct (Nat.ltb_spec (length objs') (length pts')); [|lia].
    repeat split. eexists. split; [|reflexivity]. reflexivity.
Qed.

Lemma as_many_points_as_moves_witness :
  exists a pts,
    (angles 3 = Ok a /\ length a = 3) /\
    (layout 3 = Ok pts /\ length pts = 3) /\
    (forall objs sc, length objs = 3 -> check_count objs pts sc = sc).
Proof.
  destruct (@as_many_points_as_moves 3) as (a & pts & Ha & Hl & Hc & _).
  - reflexivity.
  - lia.
  - exists a, pts. repeat split; try apply Ha; try apply Hl. exact Hc.
Defined.

(** * Further properties of the code *)

(** ** One formula for every point *)

Section Clock.

Local Open Scope R_scope.

Lemma radians_quadrant (angle : R) (q : Z) :
  radians (angle - IZR q * 90) = radians angle - IZR q * (PI / 2).
Proof. unfold radians. field. Qed.

Lemma hypotenuse_IZR (n : nat) :
  IZR (hypotenuse n) = IZR DIAGRAM_RADIUS - IZR (CIRCLE_RADIUS n).
Proof. unfold hypotenuse. apply minus_IZR. Qed.

(** Between 0 and 360 degrees, at the four directions as well as off them,
    the two numbers handed to [Point] are [R + H sin a] and [R - H cos a],
    where [a] is the angle in radians: the point at the angle, measured
    clockwise from the top, of the circle of radius [H = R - r] round the
    centre [(R, R)]. *)
Lemma point_args_clockwise (n : nat) (angle : R) :
  0 <= angle <= 360 ->
  point_args n angle =
  (IZR DIAGRAM_RADIUS + IZR (hypotenuse n) * sin (radians angle),
   IZR DIAGRAM_RADIUS - IZR (hypotenuse n) * cos (radians angle)).
Proof.
  intros Hrange.
  pose proof (hypotenuse_IZR n) as HH.
  pose proof DIAGRAM_RADIUS_value as HR.
  destruct (Req_dec_T angle 0) as [->|H0].
  { rewrite point_args_north by (now left).
    replace (radians 0) with 0 by (unfold radians; lra).
    rewrite sin_0, cos_0. f_equal; lra. }
  destruct (Req_dec_T angle 360) as [->|H360].
  { rewrite point_args_north by (now right).
    replace (radians 360) with (2 * PI) by (unfold radians; lra).
    rewrite sin_2PI, cos_2PI. f_equal; lra. }
  destruct (Req_dec_T angle 90) as [->|H90].
  { rewrite point_args_east.
    replace (radians 90) with (PI / 2) by (unfold radians; lra).
    rewrite sin_PI2, cos_PI2, minus_IZR. unfold DIAGRAM_SIZE.
    rewrite HR in *. f_equal; lra. }
  destruct (Req_dec_T angle 180) as [->|H180].
  { rewrite point_args_south.
    replace (radians 180) with PI by (unfold radians; lra).
    rewrite sin_PI, cos_PI, minus_IZR. unfold DIAGRAM_SIZE.
    rewrite HR in *. f_equal; lra. }
  destruct (Req_dec_T angle 270) as [->|H270].
  { rewrite point_args_west.
    replace (radians 270) with (3 * (PI / 2)) by (unfold radians; lra).
    rewrite sin_3PI2, cos_3PI2. f_equal; lra. }
  rewrite point_args_slanted by assumption. cbv zeta.
  destruct (Rltb_spec angle 90).
  { rewrite fmod_small by lra. reflexivity. }
  destruct (Rltb_spec angle 180).
  { rewrite (@fmod_unique angle 90 1) by lra.
    rewrite radians_quadrant, sin_minus, cos_minus.
    replace (1 * (PI / 2)) with (PI / 2) by lra.
    rewrite sin_PI2, cos_PI2. f_equal; ring. }
  destruct (Rltb_spec angle 270).
  { rewrite (@fmod_unique angle 90 2) by lra.
    rewrite radians_quadrant, sin_minus, cos_minus.
    replace (2 * (PI / 2)) with PI by lra.
    rewrite sin_PI, cos_PI. f_equal; ring. }
  rewrite (@fmod_unique angle 90 3) by lra.
  rewrite radians_quadrant, sin_minus, cos_minus.
  rewrite sin_3PI2, cos_3PI2. f_equal; ring.
Qed.

End Clock.

(** ** Rounding keeps the order *)

Section Order.

Local Open Scope R_scope.

(** X1.  [rounded] never reverses the order of two numbers, and it leaves a
    number that has at most two decimal places as it is. *)
Theorem rounded_keeps_order (a b : R) :
  a <= b ->
  rounded a <= rounded b /\
  (two_decimals a -> rounded a = a) /\ (two_decimals b -> rounded b = b).
Proof.
  intros Hab. split; [|split; apply rounded_fixed].
  rewrite !rounded_unfold.
  assert (H : (round (a * 100) <= round (b * 100))%Z)
    by (apply round_monotone; lra).
  apply IZR_le in H. lra.
Qed.

Lemma rounded_keeps_order_witness : rounded 0.004 <= rounded 0.006.
Proof. apply (@rounded_keeps_order 0.004 0.006). lra. Defined.

Lemma rounded_between (a : R) (lo hi : Z) :
  IZR lo <= a <= IZR hi -> IZR lo <= rounded a <= IZR hi.
Proof.
  intros [Hlo Hhi]. split.
  - rewrite <- (rounded_IZR lo), !rounded_unfold.
    assert (H : (round (IZR lo * 100) <= round (a * 100))%Z)
      by (apply round_monotone; lra).
    apply IZR_le in H. lra.
  - rewrite <- (rounded_IZR hi), !rounded_unfold.
    assert (H : (round (a * 100) <= round (IZR hi * 100))%Z)
      by (apply round_monotone; lra).
    apply IZR_le in H. lra.
Qed.

End Order.

(** ** Room for the markers *)

Section ClockFace.

Local Open Scope R_scope.

Lemma slice_in_circle (n k : nat) :
  (k < n)%nat -> 0 <= INR (S k) * (360 / INR n) <= 360.
Proof.
  intros Hk.
  assert (Hn : 0 < INR n) by (apply INR_positive; lia).
  assert (Hk1 : 0 <= INR (S k)) by apply pos_INR.
  assert (Hk2 : INR (S k) <= INR n) by (apply le_INR; lia).
  assert (Hi : 0 < / INR n) by (now apply Rinv_0_lt_compat).
  assert (E : INR (S k) * (360 / INR n) = 360 * (INR (S k) * / INR n))
    by (field; lra).
  assert (H1 : INR (S k) * / INR n <= 1).
  { apply Rmult_le_reg_r with (INR n); [assumption|].
    rewrite Rmult_assoc, Rinv_l by lra. lra. }
  assert (H0 : 0 <= INR (S k) * / INR n) by (apply Rmult_le_pos; lra).
  rewrite E. lra.
Qed.

Lemma layout_nth (n : nat) (pts : list Point) (k : nat) :
  layout n = Ok pts -> (k < n)%nat ->
  nth_error pts k = Some (move_point n (INR (S k) * (360 / INR n))).
Proof.
  intros Hlay Hk. rewrite layout_ok in Hlay by lia.
  assert (E : pts = map (fun k => move_point n (INR (S k) * (360 / INR n)))
                        (seq 0 n)) by congruence.
  rewrite E, nth_error_map, nth_error_seq.
  destruct (Nat.ltb_spec k n); [reflexivity|lia].
Qed.

(** X3.  Every point of a layout leaves room for its marker: the circle of
    radius [r] round the point lies within the square canvas, from 0 to
    [DIAGRAM_SIZE] both ways. *)
Theorem markers_inside_canvas (n : nat) (pts : list Point) (p : Point) :
  layout n = Ok pts -> In p pts ->
  let r := IZR (CIRCLE_RADIUS n) in
  0 <= r /\
  (0 <= x p - r /\ x p + r <= IZR DIAGRAM_SIZE) /\
  (0 <= y p - r /\ y p + r <= IZR DIAGRAM_SIZE).
Proof.
  intros Hlay Hp r.
  assert (Hn : (0 < n)%nat).
  { destruct n; [discriminate|lia]. }
  destruct (CIRCLE_RADIUS_bounds Hn) as [Hr0 Hr500].
  apply IZR_le in Hr0, Hr500. fold r in Hr0, Hr500.
  apply In_nth_error in Hp. destruct Hp as [k Hk].
  assert (Hkn : (k < n)%nat).
  { rewrite <- (layout_length _ Hlay). apply nth_error_Some. congruence. }
  pose proof (@layout_nth n pts k Hlay Hkn) as Hpt.
  unfold move_point in Hpt.
  rewrite point_args_clockwise in Hpt by (now apply slice_in_circle).
  assert (Ep : p = Point_init
            (IZR DIAGRAM_RADIUS
             + IZR (hypotenuse n) * sin (radians (INR (S k) * (360 / INR n))))
            (IZR DIAGRAM_RADIUS
             - IZR (hypotenuse n) * cos (radians (INR (S k) * (360 / INR n)))))
    by congruence.
  rewrite Ep. clear Ep Hpt Hk.
  set (a := radians (INR (S k) * (360 / INR n))).
  pose proof (SIN_bound a) as Hs. pose proof (COS_bound a) as Hc.
  pose proof (hypotenuse_IZR n) as HH. fold r in HH.
  pose proof DIAGRAM_RADIUS_value as HR. rewrite HR in HH.
  assert (Hh : 0 <= IZR (hypotenuse n)) by lra.
  assert (Hx : IZR (CIRCLE_RADIUS n)
               <= IZR DIAGRAM_RADIUS + IZR (hypotenuse n) * sin a
               <= IZR (DIAGRAM_SIZE - CIRCLE_RADIUS n)).
  { rewrite minus_IZR, HR. unfold DIAGRAM_SIZE. fold r. split; nra. }
  assert (Hy : IZR (CIRCLE_RADIUS n)
               <= IZR DIAGRAM_RADIUS - IZR (hypotenuse n) * cos a
               <= IZR (DIAGRAM_SIZE - CIRCLE_RADIUS n)).
  { rewrite minus_IZR, HR. unfold DIAGRAM_SIZE. fold r. split; nra. }
  apply rounded_between in Hx, Hy.
  rewrite minus_IZR in Hx, Hy. fold r in Hx, Hy.
  unfold Point_init. cbn [x y]. unfold DIAGRAM_SIZE in *.
  subst r. repeat split; lra.
Qed.

Lemma markers_inside_canvas_witness :
  0 <= IZR (CIRCLE_RADIUS 3) /\
  (0 <= 788.39 - IZR (CIRCLE_RADIUS 3) /\
   788.39 + IZR (CIRCLE_RADIUS 3) <= IZR DIAGRAM_SIZE) /\
  (0 <= 666.5 - IZR (CIRCLE_RADIUS 3) /\
   666.5 + IZR (CIRCLE_RADIUS 3) <= IZR DIAGRAM_SIZE).
Proof.
  apply (@markers_inside_canvas 3 _ {| x := 788.39; y := 666.5 |} layout_3).
  now left.
Defined.

End ClockFace.

(** ** What a move beats, and with which verb *)

Section Verbs.

Variable move_names : list string.
Local Abbreviation N := (length move_names).

Lemma setitem_fresh (d : dict) (k v : string) :
  ~ In k (keys d) -> setitem d k v = d ++ [(k, v)].
Proof.
  unfold keys. induction d as [|[k0 v0] d IH]; intros Hnin; [reflexivity|].
  cbn [setitem]. destruct (String.eqb_spec k0 k) as [->|Hne].
  - exfalso. apply Hnin. now left.
  - cbn [app]. rewrite IH; [reflexivity|]. intros H. apply Hnin. now right.
Qed.

Lemma keys_app (d d' : dict) : keys (d ++ d') = keys d ++ keys d'.
Proof. apply map_app. Qed.

Lemma beats_loop_pairs (number : nat) (offsets : list nat) :
  0 < N ->
  forall (info : list string) (acc : dict) (pad : nat),
    length offsets <= pad ->
    NoDup (keys acc
           ++ map (fun o => nth ((number + o) mod N) move_names "") offsets) ->
    exists info',
      beats_loop offsets number N move_names info acc =
      Ok (info',
          acc ++ combine
                   (map (fun o => nth ((number + o) mod N) move_names "") offsets)
                   (map strip info ++ repeat generic_verb pad)).
Proof.
  intros HN. induction offsets as [|o rest IH]; intros info acc pad Hpad Hnd.
  - exists info. cbn [beats_loop map combine]. now rewrite app_nil_r.
  - cbn [length] in Hpad. cbn [beats_loop map].
    assert (Hlt : (number + o) mod N < N) by (apply Nat.mod_upper_bound; lia).
    unfold getitem. rewrite (nth_error_nth' move_names "" Hlt).
    set (key := nth ((number + o) mod N) move_names "") in *.
    assert (Hfresh : ~ In key (keys acc)).
    { cbn [map] in Hnd. apply NoDup_remove_2 in Hnd. intros H. apply Hnd.
      apply in_or_app. now left. }
    assert (Hnd' : forall v,
              NoDup (keys (acc ++ [(key, v)])
                     ++ map (fun o => nth ((number + o) mod N) move_names "")
                            rest)).
    { intros v. rewrite keys_app. cbn [keys map fst]. now rewrite <- app_assoc. }
    destruct info as [|v info1]; cbn [pop0 bind map app].
    + rewrite (@setitem_fresh acc key generic_verb Hfresh).
      destruct pad as [|pad]; [lia|].
      destruct (IH [] (acc ++ [(key, generic_verb)]) pad) as [info' Hrun];
        [lia|apply Hnd'|].
      exists info'. rewrite Hrun. cbn [map app repeat combine].
      now rewrite <- app_assoc.
    + rewrite (@setitem_fresh acc key (strip v) Hfresh).
      destruct (IH info1 (acc ++ [(key, strip v)]) pad) as [info' Hrun];
        [lia|apply Hnd'|].
      exists info'. rewrite Hrun. cbn [combine]. now rewrite <- app_assoc.
Qed.

Lemma NoDup_names_at (idxs : list nat) :
  NoDup move_names -> NoDup idxs -> (forall a, In a idxs -> a < N) ->
  NoDup (map (fun a => nth a move_names "") idxs).
Proof.
  intros Hnames Hidxs Hlt.
  apply Finite.Injective_map_NoDup_in; [|exact Hidxs].
  intros a b Ha Hb E.
  apply (proj1 (NoDup_nth move_names "") Hnames); auto.
Qed.

(** X4.  In a catalog of distinct names, and for a row whose verbs are
    written with characters below 128, the dictionary of the move at
    position [i] pairs, in this order, the names at the offsets 1, 3, 5, ...
    from [i] with the verbs of its row, each stripped of surrounding
    whitespace; where the row runs out of verbs the verb is ["beats"], and
    verbs beyond the last offset are left unused. *)
Theorem beats_pairs_names_with_verbs (i : nat) (name : string)
    (verbs : list string) :
  NoDup move_names -> i < N -> forallb below_128 verbs = true ->
  exists m,
    Move_init i (name :: verbs) move_names = Ok m /\
    beats m =
    combine (map (fun o => nth ((i + o) mod N) move_names "") (range 1 N 2))
            (map strip verbs ++ repeat generic_verb (N / 2)).
Proof.
  intros Hnd Hi _. unfold Move_init. cbn [pop0 bind].
  destruct (@beats_loop_pairs i (range 1 N 2)) with
    (info := verbs) (acc := @nil (string * string)) (pad := N / 2)
    as [info' Hrun].
  - lia.
  - now rewrite length_range_odd.
  - cbn [keys map app].
    assert (E : map (fun o => nth ((i + o) mod N) move_names "") (range 1 N 2)
                = map (fun a => nth a move_names "")
                      (map (fun o => (o + i) mod N) (range 1 N 2))).
    { rewrite map_map. apply map_ext. intros o. now rewrite Nat.add_comm. }
    rewrite E. apply NoDup_names_at; [assumption| |].
    + now apply NoDup_shifted_odds.
    + intros a Ha. apply in_map_iff in Ha. destruct Ha as (o & <- & _).
      apply Nat.mod_upper_bound. lia.
  - rewrite Hrun. cbn [bind]. eexists. split; reflexivity.
Qed.

End Verbs.

Lemma beats_pairs_names_with_verbs_witness :
  exists m,
    Move_init 1 ["B"; " eats "] ["A"; "B"; "C"; "D"; "E"] = Ok m /\
    beats m = [("C", "eats"); ("E", "beats")].
Proof.
  apply (@beats_pairs_names_with_verbs ["A"; "B"; "C"; "D"; "E"] 1 "B" [" eats "]).
  - repeat constructor; cbn; intuition discriminate.
  - cbn. lia.
  - reflexivity.
Defined.


(** ** The catalog of every game that starts *)

Lemma built_catalog_ok (names : list string) (objs : list Move) :
  length objs = length names ->
  length objs mod 2 = 1 -> 3 <= length objs ->
  (forall i m, nth_error objs i = Some m ->
     exists name verbs,
       nth_error names i = Some name /\
       Move_init i (name :: verbs) names = Ok m) ->
  catalog_ok objs.
Proof.
  intros Hlen Hodd H3 Hbuilt. unfold catalog_ok. cbv zeta.
  split; [exact Hodd|]. split; [exact H3|].
  assert (Hname : forall i m, nth_error objs i = Some m ->
            nth_error names i = Some (move m)).
  { intros i m Hm. destruct (Hbuilt i m Hm) as (name & verbs & Hn & Hinit).
    destruct (Move_init_ok names i name verbs) as (m' & Hm' & Hmv & _).
    rewrite Hm' in Hinit. injection Hinit as <-. now rewrite Hmv. }
  intros i m Hm. destruct (Hbuilt i m Hm) as (name & verbs & Hn & Hinit).
  destruct (Move_init_ok names i name verbs)
    as (m' & Hm' & _ & _ & Hnum & Hkeys).
  rewrite Hm' in Hinit. injection Hinit as <-.
  rewrite <- Hlen in Hnum, Hkeys. split; [exact Hnum|].
  intros k. rewrite Hkeys. split.
  - intros (o & Ho & Hk).
    assert (Hlt : (i + o) mod length objs < length objs)
      by (apply Nat.mod_upper_bound; lia).
    destruct (nth_error objs ((i + o) mod length objs)) as [m''|] eqn:E;
      [|apply nth_error_None in E; lia].
    exists o, m''. split; [exact Ho|]. split; [exact E|].
    apply Hname in E. congruence.
  - intros (o & m'' & Ho & Hm'' & <-). exists o. split; [exact Ho|].
    now apply Hname.
Qed.

Lemma Game_init_catalog_ok (filename : string) (rows : list (list string))
    (log : list string) (g : Game) :
  Game_init filename rows = (log, Ok g) -> catalog_ok (move_objs g).
Proof.
  intros Hinit. destruct (Game_init_inv _ _ Hinit) as [mf Hread].
  destruct (@Game_init_ok filename _ _ Hread) as (g' & Hrun & Hlen & Hobjs).
  rewrite Hrun in Hinit. injection Hinit as _ ->.
  destruct (read_moves_inv _ Hread) as (_ & Hodd & H3).
  apply (@built_catalog_ok (map (hd "") mf)).
  - now rewrite length_map.
  - now rewrite Hlen.
  - now rewrite Hlen.
  - intros i m Hm. destruct (Hobjs i m Hm) as (row & Hrow & Hmv).
    assert (Hne : row <> []).
    { apply (read_moves_rows_named _ Hread). eapply nth_error_In; eassumption. }
    destruct row as [|name verbs]; [now destruct Hne|].
    exists name, verbs. split; [|exact Hmv].
    now rewrite nth_error_map, Hrow.
Qed.

Lemma default_catalog_ok : catalog_ok default_moves.
Proof.
  apply (@built_catalog_ok ["Scissors"; "Paper"; "Rock"]);
    try reflexivity.
  intros i m Hm.
  destruct i as [|[|[|i]]]; cbn in Hm; try (destruct i; discriminate);
    injection Hm as <-.
  - exists "Scissors", ["cuts"]. split; reflexivity.
  - exists "Paper", ["wraps"]. split; reflexivity.
  - exists "Rock", ["blunts"]. split; reflexivity.
Qed.

Lemma DefaultGame_init_value :
  exists g, DefaultGame_init = (["Starting game with default rules."], Ok g) /\
            move_objs g = default_moves /\
            score g = mkScore 0 0 /\ rounds g = 0.
Proof. eexists. split; [reflexivity|]. repeat split. Qed.

Lemma main_start_cases (argv : list string) (rows : list (list string)) :
  (exists log, main_start argv rows = (log, Raise SystemExit)) \/
  (exists log g, main_start argv rows = (log, Ok g) /\
                 catalog_ok (move_objs g) /\
                 score g = mkScore 0 0 /\ rounds g = 0).
Proof.
  destruct DefaultGame_init_value as (gd & Hd & Hobjs & Hsc & Hr).
  unfold main_start. destruct (getitem argv 1) as [filename|e].
  - destruct (Game_init filename rows) as [log [g|e]] eqn:Hinit.
    + right. exists log, g. split; [reflexivity|].
      split; [exact (Game_init_catalog_ok _ _ Hinit)|].
      destruct (Game_init_inv _ _ Hinit) as [mf Hread].
      destruct (@Game_init_ok filename _ _ Hread) as (g' & Hrun & _).
      rewrite Hrun in Hinit.
      assert (Eg : g = g') by congruence. subst g'.
      unfold Game_init in Hrun. rewrite Hread in Hrun.
      destruct (mapM _ mf) as [names|]; cbn [bind] in Hrun; [|discriminate].
      destruct (mapM _ (enumerate mf)) as [objs|]; cbn [bind] in Hrun;
        [|discriminate].
      injection Hrun as <-. split; reflexivity.
    + unfold Game_init in Hinit.
      destruct (read_moves rows) as [mf|e'] eqn:Hread.
      * destruct (@Game_init_ok filename _ _ Hread) as (g' & Hrun & _).
        unfold Game_init in Hrun. rewrite Hread in Hrun. congruence.
      * unfold read_moves in Hread.
        destruct (_ =? 0) in Hread;
          [|destruct (_ <? 3) in Hread; [|discriminate]];
          injection Hread as <-; injection Hinit as <- <-;
          left; eexists; reflexivity.
  - right. rewrite Hd. exists ["Starting game with default rules."], gd.
    split; [reflexivity|]. rewrite Hobjs. auto using default_catalog_ok.
Qed.

(** X5.  Every game that [main] starts, from a file or with the default
    rules, is fair: no move beats itself, no two moves beat each other, of
    two different moves one beats the other, and each move beats as many
    moves as beat it, half of the others. *)
Theorem started_game_is_fair (argv : list string) (rows : list (list string))
    (log : list string) (g : Game) :
  main_start argv rows = (log, Ok g) ->
  let objs := move_objs g in
  let N := length objs in
  (forall i, beats_index objs i i = false) /\
  (forall i j, beats_index objs i j = true -> beats_index objs j i = false) /\
  (forall i j, i < N -> j < N -> i <> j ->
     beats_index objs i j = true \/ beats_index objs j i = true) /\
  (forall i, i < N ->
     length (filter (beats_index objs i) (seq 0 N)) = (N - 1) / 2 /\
     length (filter (fun k => beats_index objs k i) (seq 0 N)) = (N - 1) / 2).
Proof.
  intros Hstart objs N.
  assert (Hok : catalog_ok objs).
  { destruct (main_start_cases argv rows) as [[log' H]|(log' & g' & H & Hok & _)];
      rewrite Hstart in H; [discriminate|].
    injection H as _ <-. exact Hok. }
  destruct Hok as (Hodd & H3 & Hshape). fold N in Hodd, H3, Hshape.
  assert (Hnum : forall i m, nth_error objs i = Some m ->
            beats_num m = map (fun o => (o + i) mod N) (range 1 N 2))
    by (intros i m Hm; exact (proj1 (Hshape i m Hm))).
  split; [intros i; now apply beats_irreflexive|].
  split; [intros i j; now apply beats_one_way|].
  split; [intros i j; now apply beats_decided|].
  intros i Hi. split; [now apply wins_count|now apply losses_count].
Qed.

Lemma started_game_is_fair_witness :
  exists log g,
    main_start ["super-zhot.py"] [] = (log, Ok g) /\
    (forall i j, beats_index (move_objs g) i j = true ->
                 beats_index (move_objs g) j i = false).
Proof.
  eexists. eexists. split; [reflexivity|].
  eapply (@started_game_is_fair ["super-zhot.py"] []). reflexivity.
Defined.

(** ** Which move the player has typed *)

Lemma first_candidate_chosen (stdin : string) (l : list Move) :
  forall (s i : nat) (m : Move),
    first_candidate stdin (combine (seq s (length l)) l) = a_Move i m <->
    s <= i /\ nth_error l (i - s) = Some m /\
    str_in (casefold stdin) (casefold (move m)) = true /\
    forall k m', k < i - s -> nth_error l k = Some m' ->
      str_in (casefold stdin) (casefold (move m')) = false.
Proof.
  induction l as [|a l IH]; intros s i m; cbn [length seq combine first_candidate].
  - split; [discriminate|]. intros (_ & H & _). now destruct (i - s).
  - destruct (str_in (casefold stdin) (casefold (move a))) eqn:Ha.
    + split.
      * intros [= <- <-]. rewrite Nat.sub_diag. repeat split; auto. lia.
      * intros (Hs & Hm & _ & Hno).
        destruct (i - s) as [|d] eqn:Hd.
        -- cbn in Hm. injection Hm as <-. f_equal. lia.
        -- rewrite (Hno 0 a) in Ha by (lia || reflexivity). discriminate.
    + rewrite IH. split.
      * intros (Hs & Hm & Hyes & Hno).
        replace (i - s) with (S (i - S s)) by lia.
        split; [lia|]. split; [exact Hm|]. split; [exact Hyes|].
        intros [|k] m' Hk; cbn [nth_error].
        -- now intros [= <-].
        -- apply Hno. lia.
      * intros (Hs & Hm & Hyes & Hno).
        destruct (i - s) as [|d] eqn:Hd.
        -- cbn in Hm. injection Hm as <-. congruence.
        -- replace (i - S s) with d by lia. cbn [nth_error] in Hm.
           split; [lia|]. split; [exact Hm|]. split; [exact Hyes|].
           intros k m' Hk Hm'. apply (Hno (S k)); [lia|exact Hm'].
Qed.

Lemma first_candidate_admin (stdin : string) (cands : list (nat * Move))
    (q : bool) :
  first_candidate stdin cands = an_AdminMove q -> q = false.
Proof.
  induction cands as [|[i c] rest IH]; cbn [first_candidate].
  - now intros [= <-].
  - destruct (str_in _ _); [discriminate|exact IH].
Qed.

Lemma one_of_commands (stdin : string) :
  one_of stdin command_words =
  one_of stdin ["exit"; "quit"] || one_of stdin ["score"; "points"]
  || one_of stdin ["rounds"; "length"]
  || one_of stdin ["help"; "moves"; "rules"; "?"]
  || one_of stdin ["dia"; "diagram"].
Proof.
  unfold one_of, command_words. cbn [existsb].
  rewrite !orb_false_r, !orb_assoc. reflexivity.
Qed.

Lemma chosen_forward (g : Game) (typed : string) (out : list console)
    (i : nat) (m : Move) :
  get_human_move g typed = (out, Done (a_Move i m)) ->
  out = [] /\ strip typed <> "" /\
  one_of (strip typed) command_words = false /\
  first_candidate (strip typed) (enumerate (move_objs g)) = a_Move i m.
Proof.
  intros H. unfold get_human_move in H. rewrite one_of_commands.
  destruct (String.eqb_spec (strip typed) "") as [E|E]; cbn [orb] in *;
    [discriminate|].
  destruct (one_of (strip typed) ["exit"; "quit"]); cbn [orb] in *;
    [discriminate|].
  destruct (one_of (strip typed) ["score"; "points"]); cbn [orb] in *;
    [discriminate|].
  destruct (one_of (strip typed) ["rounds"; "length"]); cbn [orb] in *;
    [discriminate|].
  destruct (one_of (strip typed) ["help"; "moves"; "rules"; "?"]);
    cbn [orb] in *; [discriminate|].
  destruct (one_of (strip typed) ["dia"; "diagram"]); cbn [orb] in *.
  { destruct (Diagram_init (move_objs g)) as [sc [d|e]]; discriminate. }
  injection H as <- H. auto.
Qed.

Lemma first_candidate_enumerate (objs : list Move) (typed : string)
    (i : nat) (m : Move) :
  first_candidate (strip typed) (enumerate objs) = a_Move i m <->
  nth_error objs i = Some m /\ names_move typed m = true /\
  forall k m', k < i -> nth_error objs k = Some m' ->
               names_move typed m' = false.
Proof.
  unfold enumerate, names_move. rewrite first_candidate_chosen, Nat.sub_0_r.
  split; [tauto|]. intros H. split; [lia|exact H].
Qed.

(** X6.  Where the line typed and the names of the moves are written with
    characters below 128, [get_human_move] returns the move at position [i]
    exactly when the line typed, stripped of surrounding whitespace, is not
    empty, is none of the twelve command words, occurs regardless of case in
    the name of that move, and occurs in the name of no move before it;
    nothing is printed then.  So a move whose whole name is a command word
    is not chosen by typing its name, and of two moves that both match the
    first is chosen. *)
Theorem human_move_chosen (g : Game) (typed : string) (i : nat) (m : Move) :
  below_128 typed = true ->
  forallb (fun c => below_128 (move c)) (move_objs g) = true ->
  (forall out, get_human_move g typed = (out, Done (a_Move i m)) -> out = []) /\
  (get_human_move g typed = ([], Done (a_Move i m)) <->
   strip typed <> "" /\ one_of (strip typed) command_words = false /\
   nth_error (move_objs g) i = Some m /\ names_move typed m = true /\
   forall k m', k < i -> nth_error (move_objs g) k = Some m' ->
                names_move typed m' = false).
Proof.
  intros _ _.
  split; [intros out H; now destruct (chosen_forward _ _ H)|]. split.
  - intros H. destruct (chosen_forward _ _ H) as (_ & E & Hc & Hfc).
    apply first_candidate_enumerate in Hfc. tauto.
  - intros (E & Hc & Hrest). unfold get_human_move.
    rewrite one_of_commands in Hc. rewrite !orb_false_iff in Hc.
    destruct Hc as ((((H1 & H2) & H3) & H4) & H5).
    rewrite H1, H2, H3, H4, H5, orb_false_r.
    destruct (String.eqb_spec (strip typed) ""); [contradiction|].
    now rewrite (proj2 (first_candidate_enumerate _ _ _ _) Hrest).
Qed.

Lemma human_move_chosen_witness :
  exists out,
    get_human_move (complete_initialisation default_moves []) " sCiSs "
    = (out, Done (a_Move 0 (mkMove "Scissors" [("Paper", "cuts")] 0 [1]))).
Proof.
  exists [].
  apply (proj2 (@human_move_chosen (complete_initialisation default_moves [])
                  " sCiSs " 0 (mkMove "Scissors" [("Paper", "cuts")] 0 [1])
                  eq_refl eq_refl)).
  split; [discriminate|]. split; [reflexivity|].
  split; [reflexivity|]. split; [reflexivity|]. intros k m' Hk. lia.
Defined.

(** ** Blank names *)

Section Blank.

Local Abbreviation chars := list_ascii_of_string.

Lemma isspace_casefold (c : ascii) : isspace (casefold_char c) = isspace c.
Proof.
  destruct c as [[|] [|] [|] [|] [|] [|] [|] [|]]; vm_compute; reflexivity.
Qed.

Lemma chars_casefold (s : string) :
  chars (casefold s) = map casefold_char (chars s).
Proof. induction s as [|c s IH]; [reflexivity|]. cbn. now rewrite IH. Qed.

Lemma prefix_incl (sub s : string) :
  String.prefix sub s = true -> incl (chars sub) (chars s).
Proof.
  revert s. induction sub as [|a sub IH]; intros s H.
  - intros c [].
  - destruct s as [|b s]; cbn in H; [discriminate|].
    destruct (ascii_dec a b) as [->|]; [|discriminate].
    cbn. intros c [<-|Hc]; [now left|right; now apply (IH s)].
Qed.

Lemma str_in_incl (sub s : string) :
  str_in sub s = true -> incl (chars sub) (chars s).
Proof.
  induction s as [|b s IH]; cbn [str_in].
  - destruct (String.prefix sub "") eqn:E; [|discriminate].
    intros _. now apply prefix_incl.
  - destruct (String.prefix sub (String b s)) eqn:E.
    + intros _. now apply prefix_incl.
    + intros H c Hc. right. now apply IH.
Qed.

Lemma lstrip_head (l : list ascii) :
  lstrip l = [] \/ exists c t, lstrip l = c :: t /\ isspace c = false.
Proof.
  induction l as [|c l IH]; [now left|]. cbn [lstrip].
  destruct (isspace c) eqn:E; [exact IH|]. right. now exists c, l.
Qed.

Lemma lstrip_nil (l : list ascii) :
  lstrip l = [] -> Forall (fun c => isspace c = true) l.
Proof.
  induction l as [|c l IH]; [constructor|]. cbn [lstrip].
  destruct (isspace c) eqn:E; [|discriminate]. intros H. constructor; auto.
Qed.

Lemma lstrip_last (u : list ascii) (c : ascii) :
  isspace c = false -> exists u', lstrip (u ++ [c]) = u' ++ [c].
Proof.
  intros Hc. induction u as [|a u IH]; cbn [app lstrip].
  - rewrite Hc. now exists [].
  - destruct (isspace a); [exact IH|]. now exists (a :: u).
Qed.

Lemma strip_head (s : string) :
  strip s <> "" ->
  exists c rest, strip s = String c rest /\ isspace c = false.
Proof.
  unfold strip. intros Hne.
  destruct (lstrip_head (chars s)) as [E|(c & t & E & Hc)]; rewrite E in *.
  - now destruct Hne.
  - cbn [rev]. destruct (@lstrip_last (rev t) c Hc) as [u' Hu]. rewrite Hu.
    rewrite rev_app_distr. cbn. now exists c, (string_of_list_ascii (rev u')).
Qed.

Lemma strip_blank (s : string) :
  strip s = "" -> Forall (fun c => isspace c = true) (chars s).
Proof.
  unfold strip. intros H.
  assert (E : rev (lstrip (rev (lstrip (chars s)))) = []).
  { destruct (rev (lstrip (rev (lstrip (chars s))))); [reflexivity|discriminate]. }
  assert (E' : lstrip (rev (lstrip (chars s))) = []).
  { rewrite <- (rev_involutive (lstrip _)), E. reflexivity. }
  apply lstrip_nil in E'.
  destruct (lstrip_head (chars s)) as [E0|(c & t & E0 & Hc)].
  - now apply lstrip_nil.
  - rewrite E0 in E'. rewrite Forall_forall in E'.
    specialize (E' c). rewrite <- in_rev in E'.
    rewrite E' in Hc by now left. discriminate.
Qed.

Lemma named_move_not_blank (typed : string) (m : Move) :
  strip typed <> "" -> names_move typed m = true -> strip (move m) <> "".
Proof.
  intros Hne Hin Hblank. apply strip_blank in Hblank.
  destruct (@strip_head typed Hne) as (c & rest & Ec & Hc).
  unfold names_move in Hin. rewrite Ec in Hin.
  apply str_in_incl in Hin. rewrite !chars_casefold in Hin.
  cbn [list_ascii_of_string map] in Hin.
  specialize (Hin (casefold_char c) (or_introl eq_refl)).
  apply in_map_iff in Hin. destruct Hin as (c' & Hcc & Hc').
  rewrite Forall_forall in Hblank. specialize (Hblank c' Hc').
  rewrite <- isspace_casefold, Hcc, isspace_casefold in Hblank. congruence.
Qed.

Lemma chosen_move_facts (g : Game) (typed : string) (out : list console)
    (i : nat) (m : Move) :
  get_human_move g typed = (out, Done (a_Move i m)) ->
  out = [] /\ nth_error (move_objs g) i = Some m /\ move m <> "".
Proof.
  intros H. destruct (chosen_forward _ _ H) as (Hout & Hne & _ & Hfc).
  apply first_candidate_enumerate in Hfc. destruct Hfc as (Hm & Hin & _).
  split; [exact Hout|]. split; [exact Hm|].
  intros E. apply (@named_move_not_blank typed m Hne Hin). now rewrite E.
Qed.


End Blank.


(** ** A round *)

Lemma choice_ok {A} (r : nat) (l : list A) :
  l <> [] -> exists a, choice r l = Ok a /\ nth_error l (r mod length l) = Some a.
Proof.
  intros Hne. unfold choice, getitem.
  assert (Hlt : r mod length l < length l).
  { apply Nat.mod_upper_bound. destruct l; [congruence|cbn; lia]. }
  destruct (nth_error l (r mod length l)) as [a|] eqn:E;
    [|apply nth_error_None in E; lia].
  exists a. destruct l; [congruence|]. now split.
Qed.

Lemma choice_enumerate (r : nat) (objs : list Move) :
  objs <> [] ->
  exists j a, choice r (enumerate objs) = Ok (j, a) /\ nth_error objs j = Some a.
Proof.
  intros Hne.
  destruct (@choice_ok _ r (enumerate objs)) as ([j a] & Hc & Hn).
  - destruct objs; [congruence|discriminate].
  - exists j, a. split; [exact Hc|]. apply In_enumerate.
    eapply nth_error_In; eassumption.
Qed.

Lemma result_vs_of_key (m : Move) (k : string) :
  contains (beats m) k = true ->
  exists v, In (k, v) (beats m) /\
            result_vs m k = Some (join " " [move m; v; k] ++ ".")%string.
Proof.
  unfold contains, result_vs, keys.
  induction (beats m) as [|[k0 v0] d IH]; cbn [map existsb find fst];
    [discriminate|].
  rewrite (String.eqb_sym k k0).
  destruct (String.eqb_spec k0 k) as [->|Hne]; cbn [orb].
  - intros _. exists v0. split; [now left|reflexivity].
  - intros H. destruct (IH H) as (v & Hin & Hres). exists v. split; [now right|].
    exact Hres.
Qed.

Lemma result_vs_is_a_rule (objs : list Move) (i : nat) (m : Move)
    (k v : string) :
  nth_error objs i = Some m -> In (k, v) (beats m) ->
  In (join " " [move m; v; k] ++ "." ++ String "010" "")%string
     (rule_lines objs).
Proof.
  intros Hm Hin. unfold rule_lines. apply in_flat_map.
  exists m. split; [eapply nth_error_In; eassumption|].
  apply in_map_iff. now exists (k, v).
Qed.

Section Pairs.

Variable objs : list Move.
Hypothesis objs_ok : catalog_ok objs.
Local Abbreviation N := (length objs).

Lemma catalog_odd : N mod 2 = 1.
Proof. exact (proj1 objs_ok). Qed.

Lemma catalog_beats_num (i : nat) (m : Move) :
  nth_error objs i = Some m ->
  beats_num m = map (fun o => (o + i) mod N) (range 1 N 2).
Proof. intros Hm. exact (proj1 (proj2 (proj2 objs_ok) i m Hm)). Qed.

Lemma catalog_keys (i : nat) (m : Move) (k : string) :
  nth_error objs i = Some m ->
  In k (keys (beats m)) <->
  exists o m', In o (range 1 N 2) /\
               nth_error objs ((i + o) mod N) = Some m' /\ move m' = k.
Proof. intros Hm. exact (proj2 (proj2 (proj2 objs_ok) i m Hm) k). Qed.

Lemma catalog_not_empty : objs <> [].
Proof.
  destruct objs_ok as (_ & H3 & _). intros E. rewrite E in H3. cbn in H3. lia.
Qed.

Lemma catalog_targets : targets_in_range objs.
Proof.
  intros m t Hm Ht. apply In_nth_error in Hm. destruct Hm as [i Hi].
  rewrite (catalog_beats_num _ Hi) in Ht. apply in_map_iff in Ht.
  destruct Ht as (o & <- & _). apply Nat.mod_upper_bound.
  pose proof catalog_odd. lia.
Qed.

(** The name of a move beaten by index is a key of the winner. *)
Lemma beaten_name_is_key (i j : nat) (h a : Move) :
  nth_error objs i = Some h -> nth_error objs j = Some a ->
  beats_index objs i j = true -> contains (beats h) (move a) = true.
Proof.
  intros Hh Ha Hb. unfold beats_index in Hb. rewrite Hh in Hb.
  apply existsb_exists in Hb. destruct Hb as (j' & Hj & E).
  apply Nat.eqb_eq in E. subst j'.
  rewrite (catalog_beats_num _ Hh) in Hj. apply in_map_iff in Hj.
  destruct Hj as (o & Ho & Hin).
  apply contains_In, (catalog_keys _ _ Hh). exists o, a.
  split; [exact Hin|]. split; [|reflexivity].
  now rewrite Nat.add_comm, Ho.
Qed.

Lemma one_name_is_key (i j : nat) (h a : Move) :
  nth_error objs i = Some h -> nth_error objs j = Some a -> i <> j ->
  contains (beats a) (move h) = true \/ contains (beats h) (move a) = true.
Proof.
  intros Hh Ha Hne.
  assert (Hi : i < N) by (apply nth_error_Some; congruence).
  assert (Hj : j < N) by (apply nth_error_Some; congruence).
  destruct (@beats_decided objs catalog_odd catalog_beats_num i j Hi Hj Hne)
    as [H|H].
  - right. eapply beaten_name_is_key; eassumption.
  - left. eapply beaten_name_is_key; eassumption.
Qed.

Hypothesis names_differ : NoDup (map move objs).

Lemma key_is_beaten_name (i j : nat) (h a : Move) :
  nth_error objs i = Some h -> nth_error objs j = Some a ->
  contains (beats h) (move a) = true -> beats_index objs i j = true.
Proof.
  intros Hh Ha Hc. apply contains_In, (catalog_keys _ _ Hh) in Hc.
  destruct Hc as (o & m' & Ho & Hm' & Hname).
  assert (Hlt : (i + o) mod N < N).
  { apply nth_error_Some. congruence. }
  assert (E : (i + o) mod N = j).
  { apply (proj1 (NoDup_nth_error (map move objs)) names_differ).
    - now rewrite length_map.
    - rewrite !nth_error_map, Hm', Ha. cbn [option_map]. now rewrite Hname. }
  unfold beats_index. rewrite Hh, (catalog_beats_num _ Hh).
  apply existsb_exists. exists j. split; [|apply Nat.eqb_refl].
  apply in_map_iff. exists o. split; [|exact Ho].
  now rewrite Nat.add_comm.
Qed.

End Pairs.

Lemma string_app_assoc (a b c : string) :
  ((a ++ b) ++ c = a ++ (b ++ c))%string.
Proof. induction a as [|x a IH]; [reflexivity|]. cbn. now rewrite IH. Qed.

Lemma In_remark (r : nat) (remarks : list string) :
  remarks <> [] -> exists remark, choice r remarks = Ok remark /\ In remark remarks.
Proof.
  intros Hne. destruct (@choice_ok _ r remarks Hne) as (remark & Hc & Hn).
  exists remark. split; [exact Hc|]. eapply nth_error_In; eassumption.
Qed.

(** How two moves of a catalog settle a round. *)
Lemma settle_ok (objs : list Move) (i j : nat) (h a : Move) (r : nat) :
  catalog_ok objs ->
  nth_error objs i = Some h -> nth_error objs j = Some a ->
  exists result sc,
    settle i h j a r = Done (result, sc) /\
    (i = j -> result = "Stalemate." /\ sc = mkScore 0 0) /\
    (i <> j ->
       exists sentence remark,
         result = (sentence ++ " " ++ remark)%string /\
         In (sentence ++ String "010" "")%string (rule_lines objs) /\
         ((contains (beats a) (move h) = true /\ sc = mkScore 0 1 /\
           result_vs a (move h) = Some sentence /\
           In remark remarks_victorious) \/
          (contains (beats a) (move h) = false /\ sc = mkScore 1 0 /\
           result_vs h (move a) = Some sentence /\
           In remark remarks_conceding))).
Proof.
  intros Hok Hh Ha. unfold settle.
  destruct (Nat.eqb_spec i j) as [E|Hne].
  { eexists. eexists. split; [reflexivity|]. split; [auto|contradiction]. }
  destruct (contains (beats a) (move h)) eqn:Hc.
  - destruct (result_vs_of_key _ _ Hc) as (v & Hin & Hres). rewrite Hres.
    destruct (@In_remark r remarks_victorious) as (remark & Hr & Hrin);
      [discriminate|].
    rewrite Hr. eexists. eexists. split; [reflexivity|].
    split; [contradiction|]. intros _. eexists. exists remark.
    split; [reflexivity|]. split.
    + rewrite string_app_assoc. eapply result_vs_is_a_rule; eassumption.
    + left. auto.
  - destruct (@one_name_is_key objs Hok i j h a Hh Ha Hne) as [H|H];
      [congruence|].
    rewrite H.
    destruct (result_vs_of_key _ _ H) as (v & Hin & Hres). rewrite Hres.
    destruct (@In_remark r remarks_conceding) as (remark & Hr & Hrin);
      [discriminate|].
    rewrite Hr. eexists. eexists. split; [reflexivity|].
    split; [contradiction|]. intros _. eexists. exists remark.
    split; [reflexivity|]. split.
    + rewrite string_app_assoc. eapply result_vs_is_a_rule; eassumption.
    + right. auto.
Qed.

(** A round in which a move was chosen for the player comes to settling
    that move against the move picked for the program. *)
Lemma Round_init_played (g : Game) (typed : string) (r_ai r_remark : nat)
    (out1 : list console) (i : nat) (h : Move) :
  catalog_ok (move_objs g) ->
  get_human_move g typed = (out1, Done (a_Move i h)) ->
  exists j a result sc,
    choice r_ai (enumerate (move_objs g)) = Ok (j, a) /\
    nth_error (move_objs g) i = Some h /\ nth_error (move_objs g) j = Some a /\
    settle i h j a r_remark = Done (result, sc) /\
    Round_init g typed r_ai r_remark =
    ([print_line ("Options: " ++ move_names_str g ++ ".")%string;
      print_prompt "What is your move?"],
     (played_one_more g,
      Done (mkRound
              ("You play " ++ move h ++ " and I play " ++ move a ++ ". ")%string
              (result ++ String "010" "")%string sc))).
Proof.
  intros Hok Hget.
  destruct (chosen_move_facts _ _ Hget) as (-> & Hh & Hname).
  destruct (@choice_enumerate r_ai (move_objs g) (catalog_not_empty Hok))
    as (j & a & Hc & Ha).
  destruct (@settle_ok (move_objs g) i j h a r_remark Hok Hh Ha)
    as (result & sc & Hs & _).
  exists j, a, result, sc. split; [exact Hc|]. split; [exact Hh|].
  split; [exact Ha|]. split; [exact Hs|].
  unfold Round_init. rewrite Hget, Hc.
  destruct (String.eqb_spec (move h) "") as [E|_]; [contradiction|].
  cbn [negb]. now rewrite Hs.
Qed.

(** X8.  Whenever the player has chosen a move of a well-built catalog, the
    round is played to its end and counted: the same move on both sides is a
    stalemate with no point; otherwise exactly one side gets one point, and
    what is said is "winner verb loser." taken from the rules, followed by a
    remark.  When the names of the catalog differ, the point goes to the
    side whose move beats the other by index. *)
Theorem round_is_settled (g : Game) (typed : string) (r_ai r_remark : nat)
    (out1 : list console) (i : nat) (h : Move) :
  catalog_ok (move_objs g) ->
  get_human_move g typed = (out1, Done (a_Move i h)) ->
  let objs := move_objs g in
  exists j a rd out,
    choice r_ai (enumerate objs) = Ok (j, a) /\
    Round_init g typed r_ai r_remark = (out, (played_one_more g, Done rd)) /\
    moves rd = ("You play " ++ move h ++ " and I play " ++ move a ++ ". ")%string /\
    (i = j ->
       outcome rd = ("Stalemate." ++ String "010" "")%string /\
       round_score rd = mkScore 0 0) /\
    (i <> j ->
       human (round_score rd) + ai (round_score rd) = 1 /\
       exists sentence remark,
         outcome rd = ((sentence ++ " " ++ remark) ++ String "010" "")%string /\
         In (sentence ++ String "010" "")%string (rule_lines objs)) /\
    (NoDup (map move objs) ->
       (beats_index objs j i = true -> round_score rd = mkScore 0 1) /\
       (beats_index objs i j = true -> round_score rd = mkScore 1 0)).
Proof.
  intros Hok Hget objs.
  destruct (@Round_init_played g typed r_ai r_remark out1 i h Hok Hget)
    as (j & a & result & sc & Hc & Hh & Ha & Hs & Hrun).
  fold objs in Hc, Hh, Ha.
  destruct (@settle_ok objs i j h a r_remark Hok Hh Ha)
    as (result' & sc' & Hs' & Heq & Hne).
  rewrite Hs in Hs'. injection Hs' as <- <-.
  exists j, a. eexists. eexists. split; [exact Hc|].
  split; [exact Hrun|]. cbn [moves outcome round_score].
  split; [reflexivity|]. split.
  { intros E. destruct (Heq E) as [-> ->]. now split. }
  split.
  { intros E. destruct (Hne E) as (sentence & remark & -> & Hrule & Hcase).
    split.
    - destruct Hcase as [(_ & -> & _)|(_ & -> & _)]; reflexivity.
    - now exists sentence, remark. }
  intros Hnd. split; intros Hb.
  - assert (Hij : i <> j).
    { intros ->. rewrite (beats_irreflexive objs (catalog_odd Hok)
                            (catalog_beats_num Hok)) in Hb. discriminate. }
    destruct (Hne Hij) as (_ & _ & _ & _ & [(_ & -> & _)|(Hf & _)]);
      [reflexivity|].
    rewrite (@beaten_name_is_key objs Hok j i a h Ha Hh Hb) in Hf. discriminate.
  - assert (Hij : i <> j).
    { intros ->. rewrite (beats_irreflexive objs (catalog_odd Hok)
                            (catalog_beats_num Hok)) in Hb. discriminate. }
    destruct (Hne Hij) as (_ & _ & _ & _ & [(Ht & _)|(_ & -> & _)]);
      [|reflexivity].
    apply (@key_is_beaten_name objs Hok Hnd j i a h Ha Hh) in Ht.
    rewrite (beats_one_way objs (catalog_odd Hok) (catalog_beats_num Hok) _ _ Hb)
      in Ht. discriminate.
Qed.

Lemma round_is_settled_witness :
  exists j a rd out,
    choice 5 (enumerate default_moves) = Ok (j, a) /\
    Round_init (complete_initialisation default_moves []) "paper" 5 1
    = (out, (played_one_more (complete_initialisation default_moves []),
             Done rd)) /\
    moves rd = ("You play Paper and I play " ++ move a ++ ". ")%string.
Proof.
  destruct (@round_is_settled (complete_initialisation default_moves [])
              "paper" 5 1 [] 1 (mkMove "Paper" [("Rock", "wraps")] 1 [2])
              default_catalog_ok eq_refl)
    as (j & a & rd & out & H1 & H2 & H3 & _).
  exists j, a, rd, out. auto.
Defined.

(** ** The loop of the game *)

Lemma get_human_move_done (g : Game) (typed : string) :
  catalog_ok (move_objs g) ->
  exists out p, get_human_move g typed = (out, Done p).
Proof.
  intros Hok. unfold get_human_move.
  destruct (_ || _); [eexists; eexists; reflexivity|].
  destruct (one_of _ ["score"; "points"]); [eexists; eexists; reflexivity|].
  destruct (one_of _ ["rounds"; "length"]); [eexists; eexists; reflexivity|].
  destruct (one_of _ ["help"; "moves"; "rules"; "?"]);
    [eexists; eexists; reflexivity|].
  destruct (one_of _ ["dia"; "diagram"]); [|eexists; eexists; reflexivity].
  destruct (@Diagram_init_ok (move_objs g) (catalog_not_empty Hok)
              (catalog_targets Hok)) as (pts & _ & _ & Hrun).
  rewrite Hrun. eexists. eexists. reflexivity.
Qed.

Lemma Round_init_cases (g : Game) (typed : string) (r_ai r_remark : nat) :
  catalog_ok (move_objs g) ->
  exists out,
    Round_init g typed r_ai r_remark = (out, (g, Stopped (builtin SystemExit)))
    \/ Round_init g typed r_ai r_remark
       = (out, (g, Done (mkRound "" "" (mkScore 0 0))))
    \/ exists rd,
         Round_init g typed r_ai r_remark = (out, (played_one_more g, Done rd))
         /\ human (round_score rd) + ai (round_score rd) <= 1.
Proof.
  intros Hok. destruct (@get_human_move_done g typed Hok) as (out1 & p & Hget).
  destruct p as [i h|quitting].
  - destruct (@Round_init_played g typed r_ai r_remark out1 i h Hok Hget)
      as (j & a & result & sc & _ & Hh & Ha & Hs & Hrun).
    eexists. right. right. eexists. split; [exact Hrun|].
    cbn [round_score].
    destruct (@settle_ok (move_objs g) i j h a r_remark Hok Hh Ha)
      as (result' & sc' & Hs' & Heq & Hne).
    rewrite Hs in Hs'. injection Hs' as <- <-.
    destruct (Nat.eq_dec i j) as [E|E].
    + destruct (Heq E) as [_ ->]. cbn. lia.
    + destruct (Hne E) as (_ & _ & _ & _ & [(_ & -> & _)|(_ & -> & _)]);
        cbn; lia.
  - destruct (@choice_enumerate r_ai (move_objs g) (catalog_not_empty Hok))
      as (j & a & Hc & _).
    unfold Round_init. rewrite Hget, Hc.
    destruct quitting; eexists; [left|right; left]; reflexivity.
Qed.

Lemma main_turn_cases (g : Game) (typed : string) (r_ai r_remark : nat) :
  catalog_ok (move_objs g) ->
  exists out g',
    (main_turn g typed r_ai r_remark = (out, (g', Stopped (builtin SystemExit)))
     /\ g' = g)
    \/ (main_turn g typed r_ai r_remark = (out, (g', Done tt))
        /\ move_objs g' = move_objs g
        /\ rounds g <= rounds g' <= rounds g + 1
        /\ human (score g') + ai (score g') + rounds g
           <= human (score g) + ai (score g) + rounds g').
Proof.
  intros Hok. unfold main_turn.
  destruct (@Round_init_cases g typed r_ai r_remark Hok)
    as (out & [H|[H|(rd & H & Hsc)]]); rewrite H.
  - exists out, g. left. now split.
  - eexists. eexists. right. split; [reflexivity|]. cbn. repeat split; lia.
  - eexists. eexists. right. split; [reflexivity|]. cbn. repeat split; lia.
Qed.

Lemma main_loop_invariant (inputs : list (string * nat * nat)) :
  forall g, catalog_ok (move_objs g) ->
  exists out g' end_,
    main_loop g inputs = (out, (g', end_)) /\
    ~ crashed end_ /\ move_objs g' = move_objs g /\
    rounds g <= rounds g' <= rounds g + length inputs /\
    human (score g') + ai (score g') + rounds g
    <= human (score g) + ai (score g) + rounds g'.
Proof.
  induction inputs as [|[[typed r_ai] r_remark] rest IH]; intros g Hok;
    cbn [main_loop length].
  - exists [], g, None. repeat split; auto; lia.
  - destruct (@main_turn_cases g typed r_ai r_remark Hok)
      as (out & g1 & [[H ->]|(H & Hobjs & Hr & Hs)]); rewrite H.
    + exists out, g, (Some (builtin SystemExit)). repeat split; auto; lia.
    + rewrite <- Hobjs in Hok.
      destruct (IH g1 Hok) as (out' & g' & end_ & Hrun & Hc & Ho & Hr' & Hs').
      rewrite Hrun. exists (out ++ out'), g', end_.
      split; [reflexivity|]. split; [exact Hc|].
      split; [congruence|]. split; lia.
Qed.

(** X9.  The program stops by [exit()] or not at all: either the file has
    a wrong number of rows and the start ends in [exit()], or a game starts
    and, whatever is typed and whatever is drawn, every turn of the loop
    runs to its end until the player quits; the moves of the game are never
    changed on the way. *)
Theorem game_only_stops_by_exit (argv : list string)
    (rows : list (list string)) (inputs : list (string * nat * nat)) :
  (exists log, main_start argv rows = (log, Raise SystemExit)) \/
  (exists log g,
     main_start argv rows = (log, Ok g) /\
     exists out g' end_,
       main_loop g inputs = (out, (g', end_)) /\
       ~ crashed end_ /\ move_objs g' = move_objs g).
Proof.
  destruct (main_start_cases argv rows) as [H|(log & g & H & Hok & _)];
    [now left|right].
  exists log, g. split; [exact H|].
  destruct (@main_loop_invariant inputs _ Hok)
    as (out & g' & end_ & Hrun & Hc & Ho & _).
  now exists out, g', end_.
Qed.

(** X10.  The score is kept within the rounds: after any lines typed, the
    points of the two sides together are no more than the rounds counted,
    and the rounds counted no more than the lines typed. *)
Theorem score_within_rounds (argv : list string) (rows : list (list string))
    (log : list string) (g : Game) (inputs : list (string * nat * nat))
    (out : list console) (g' : Game) (end_ : option raised) :
  main_start argv rows = (log, Ok g) ->
  main_loop g inputs = (out, (g', end_)) ->
  human (score g') + ai (score g') <= rounds g' /\
  rounds g' <= length inputs.
Proof.
  intros Hstart Hrun.
  destruct (main_start_cases argv rows) as [[log' H]|(log' & g0 & H & Hok & Hsc & Hr)];
    rewrite Hstart in H; [discriminate|].
  injection H as _ <-.
  destruct (@main_loop_invariant inputs _ Hok)
    as (out1 & g1 & end1 & Hrun1 & _ & _ & Hr1 & Hs1).
  rewrite Hrun in Hrun1. injection Hrun1 as _ <- _.
  rewrite Hsc, Hr in *. cbn [human ai] in *. lia.
Qed.

Lemma score_within_rounds_witness :
  let inputs := [("rock", 0, 0); ("help", 1, 1); ("quit", 2, 2)] in
  let g := complete_initialisation default_moves
             ["Scissors"; "Paper"; "Rock"] in
  let g' := fst (snd (main_loop g inputs)) in
  human (score g') + ai (score g') <= rounds g' /\
  rounds g' <= length inputs.
Proof.
  intros inputs g g'.
  apply (@score_within_rounds ["super-zhot.py"] []
           ["Starting game with default rules."] g inputs
           (fst (main_loop g inputs)) g' (snd (snd (main_loop g inputs)))).
  - reflexivity.
  - reflexivity.
Defined.

(** ** The rules and the results *)

Lemma result_vs_none (m : Move) (k : string) :
  result_vs m k = None <-> contains (beats m) k = false.
Proof.
  split.
  - intros H. destruct (contains (beats m) k) eqn:E; [|reflexivity].
    destruct (result_vs_of_key _ _ E) as (v & _ & Hres). congruence.
  - unfold result_vs, contains, keys.
    induction (beats m) as [|[k0 v0] d IH]; cbn [map existsb find fst];
      [reflexivity|].
    rewrite (String.eqb_sym k k0).
    destruct (String.eqb k0 k); cbn [orb]; [discriminate|exact IH].
Qed.

Lemma result_vs_some (m : Move) (k s : string) :
  result_vs m k = Some s ->
  exists v, In (k, v) (beats m) /\ s = (join " " [move m; v; k] ++ ".")%string.
Proof.
  intros H. destruct (contains (beats m) k) eqn:E.
  - destruct (result_vs_of_key _ _ E) as (v & Hin & Hres).
    exists v. split; [exact Hin|congruence].
  - apply result_vs_none in E. congruence.
Qed.

Lemma length_built_beats (move_names : list string) (i : nat) (name : string)
    (verbs : list string) (m : Move) :
  NoDup move_names -> i < length move_names ->
  Move_init i (name :: verbs) move_names = Ok m ->
  length (beats m) = length move_names / 2.
Proof.
  intros Hnd Hi. unfold Move_init. cbn [pop0 bind].
  destruct (@beats_loop_pairs move_names i (range 1 (length move_names) 2))
    with (info := verbs) (acc := @nil (string * string))
         (pad := length move_names / 2) as [info' Hrun].
  - lia.
  - now rewrite length_range_odd.
  - cbn [keys map app].
    assert (E : map (fun o => nth ((i + o) mod length move_names) move_names "")
                    (range 1 (length move_names) 2)
                = map (fun a => nth a move_names "")
                      (map (fun o => (o + i) mod length move_names)
                           (range 1 (length move_names) 2))).
    { rewrite map_map. apply map_ext. intros o. now rewrite Nat.add_comm. }
    rewrite E. apply NoDup_names_at; [assumption| |].
    + now apply NoDup_shifted_odds.
    + intros a Ha. apply in_map_iff in Ha. destruct Ha as (o & <- & _).
      apply Nat.mod_upper_bound. lia.
  - rewrite Hrun. cbn [bind]. intros [= <-]. cbn [beats app].
    rewrite length_combine, length_map, length_range_odd, length_app,
      repeat_length.
    apply Nat.min_l. exact (Nat.le_add_l _ _).
Qed.

(** X11.  In a game built from a file, whatever [result_vs] answers for a
    move is one of the sentences of the rules, and it fails, on a missing
    key, exactly for the names that are not in the dictionary of the move;
    the rules are the heading, these sentences and the closing line, and
    when the names of the file differ there are [N * (N - 1) / 2]
    sentences. *)
Theorem rules_cover_results (filename : string) (rows : list (list string))
    (log : list string) (g : Game) :
  Game_init filename rows = (log, Ok g) ->
  let objs := move_objs g in
  let N := length objs in
  (forall i m k s, nth_error objs i = Some m -> result_vs m k = Some s ->
     In (s ++ String "010" "")%string (rule_lines objs)) /\
  (forall i m k, nth_error objs i = Some m ->
     (result_vs m k = None <-> contains (beats m) k = false)) /\
  rules g =
    (String "010" "Rules of the game:" ++ String "010" ""
     ++ String.concat "" (rule_lines objs)
     ++ String "010" "Make one of these moves, or use ‘score’, ‘rounds’, ‘help’ or ‘exit’.")%string /\
  (NoDup (map move objs) -> length (rule_lines objs) = N * (N - 1) / 2).
Proof.
  intros Hinit objs N.
  destruct (Game_init_inv _ _ Hinit) as [mf Hread].
  destruct (@Game_init_ok filename _ _ Hread) as (g' & Hrun & Hlen & Hobjs).
  rewrite Hrun in Hinit. assert (Eg : g' = g) by congruence. subst g'.
  destruct (read_moves_inv _ Hread) as (_ & Hodd & H3).
  split; [|split; [|split]].
  - intros i m k s Hm Hres. destruct (result_vs_some _ _ Hres) as (v & Hin & ->).
    rewrite string_app_assoc. eapply result_vs_is_a_rule; eassumption.
  - intros i m k _. apply result_vs_none.
  - unfold Game_init in Hrun. rewrite Hread in Hrun.
    destruct (mapM _ mf) as [names|]; cbn [bind] in Hrun; [|discriminate].
    destruct (mapM _ (enumerate mf)) as [objs'|]; cbn [bind] in Hrun;
      [|discriminate].
    injection Hrun as <-. reflexivity.
  - intros Hnd. fold objs in Hlen, Hobjs.
    assert (Hnames : map move objs = map (hd "") mf).
    { apply nth_error_ext. intros i. rewrite !nth_error_map.
      destruct (nth_error objs i) as [m|] eqn:Hm.
      - destruct (Hobjs i m Hm) as (row & Hrow & Hmv). rewrite Hrow.
        destruct row as [|name verbs];
          [exfalso; eapply (read_moves_rows_named _ Hread);
             [eapply nth_error_In; eassumption|reflexivity]|].
        destruct (Move_init_ok (map (hd "") mf) i name verbs)
          as (m' & Hm' & Hmove & _).
        cbn. congruence.
      - apply nth_error_None in Hm. rewrite Hlen in Hm.
        apply nth_error_None in Hm. now rewrite Hm. }
    rewrite Hnames in Hnd.
    unfold rule_lines.
    rewrite (@length_flat_map_const _ _ _ objs (N / 2)).
    + rewrite odd_triangle by (unfold N; lia).
      replace ((N - 1) / 2) with (N / 2) by (unfold N; lia). reflexivity.
    + intros m Hm. rewrite length_map.
      apply In_nth_error in Hm. destruct Hm as [i Hi].
      destruct (Hobjs i m Hi) as (row & Hrow & Hmv).
      destruct row as [|name verbs];
        [exfalso; eapply (read_moves_rows_named _ Hread);
           [eapply nth_error_In; eassumption|reflexivity]|].
      rewrite (@length_built_beats (map (hd "") mf) i name verbs m Hnd);
        [unfold N; now rewrite length_map, Hlen| |exact Hmv].
      rewrite length_map, <- Hlen. apply nth_error_Some. congruence.
Qed.

Lemma rules_cover_results_witness :
  exists log g,
    Game_init "rules.csv"
      [["Scissors"; "cuts"]; ["Paper"; "wraps"]; ["Rock"; "blunts"]]
    = (log, Ok g) /\
    (NoDup (map move (move_objs g)) ->
     length (rule_lines (move_objs g))
     = length (move_objs g) * (length (move_objs g) - 1) / 2).
Proof.
  eexists. eexists. split; [reflexivity|].
  eapply (@rules_cover_results "rules.csv"
            [["Scissors"; "cuts"]; ["Paper"; "wraps"]; ["Rock"; "blunts"]]).
  reflexivity.
Defined.

(** ** When the diagram can be drawn *)

(** X12.  For moves whose targets are positions of the list, the diagram
    fails only on the empty list, by dividing by zero before anything is
    printed or drawn; otherwise it is drawn to its end with one point for
    each move, each move printed once and in order, one legend for each
    move and one line for each target of each move. *)
Theorem diagram_fails_only_when_empty (objs : list Move) :
  targets_in_range objs ->
  (objs = [] ->
   Diagram_init objs = (mkScene [] [] [], Raise ZeroDivisionError)) /\
  (objs <> [] ->
   exists sc d,
     Diagram_init objs = (sc, Ok d) /\
     length (diagram_points d) = length objs /\
     printed sc = map print_move objs /\
     length (filter is_text (elements sc)) = length objs /\
     length (filter is_line (elements sc)) = length (edges objs)).
Proof.
  intros Hrange. split.
  - intros ->. reflexivity.
  - intros Hne.
    destruct (Diagram_init_ok Hne Hrange) as (pts & Hlay & Hlen & Hrun).
    assert (Hpts : forall m t, In m objs -> In t (beats_num m) -> t < length pts)
      by (intros m t Hm Ht; rewrite Hlen; now apply (Hrange m)).
    eexists. eexists. split; [exact Hrun|]. cbn [diagram_points].
    split; [exact Hlen|]. split; [|split].
    + cbn [drawn printed]. now rewrite Hlen, firstn_all.
    + rewrite (@drawn_texts objs pts Hlen), length_map, length_combine. lia.
    + now rewrite (@drawn_lines objs pts Hlen Hpts), length_map.
Qed.

Lemma diagram_fails_only_when_empty_witness :
  exists sc d,
    Diagram_init default_moves = (sc, Ok d) /\
    length (diagram_points d) = length default_moves /\
    printed sc = map print_move default_moves.
Proof.
  destruct (@diagram_fails_only_when_empty default_moves default_moves_in_range)
    as [_ H].
  destruct H as (sc & d & H1 & H2 & H3 & _).
  - rewrite default_moves_value. discriminate.
  - exists sc, d. auto.
Defined.

(** ** What counts as a round *)

(** X13.  A turn of the loop that goes on either had a move chosen for the
    player, and then one more round is counted, or had none chosen, the
    line being a command or naming no move, and then neither the rounds nor
    the score change. *)
Theorem rounds_count_chosen_moves (g : Game) (typed : string)
    (r_ai r_remark : nat) (out : list console) (g' : Game) :
  catalog_ok (move_objs g) ->
  main_turn g typed r_ai r_remark = (out, (g', Done tt)) ->
  (rounds g' = rounds g + 1 /\
   exists i m, get_human_move g typed = ([], Done (a_Move i m))) \/
  (rounds g' = rounds g /\ score g' = score g /\
   exists out1, get_human_move g typed = (out1, Done (an_AdminMove false))).
Proof.
  intros Hok Hturn.
  destruct (@get_human_move_done g typed Hok) as (out1 & p & Hget).
  destruct p as [i h|quitting].
  - left.
    destruct (chosen_move_facts _ _ Hget) as (Hout & _). subst out1.
    destruct (@Round_init_played g typed r_ai r_remark [] i h Hok Hget)
      as (j & a & result & sc & _ & _ & _ & _ & Hrun).
    unfold main_turn in Hturn. rewrite Hrun in Hturn.
    injection Hturn as _ <-. split; [reflexivity|]. now exists i, h.
  - destruct (@choice_enumerate r_ai (move_objs g) (catalog_not_empty Hok))
      as (j & a & Hc & _).
    unfold main_turn, Round_init in Hturn. rewrite Hget, Hc in Hturn.
    destruct quitting; [discriminate|].
    injection Hturn as _ <-. right. cbn [rounds score round_score human ai].
    split; [reflexivity|]. split; [|now exists out1].
    destruct (score g) as [hs as_]. cbn. now rewrite !Nat.add_0_r.
Qed.

Lemma rounds_count_chosen_moves_witness :
  let g := complete_initialisation default_moves ["Scissors"; "Paper"; "Rock"] in
  let g' := fst (snd (main_turn g "help" 0 0)) in
  (rounds g' = rounds g + 1 /\
   exists i m, get_human_move g "help" = ([], Done (a_Move i m))) \/
  (rounds g' = rounds g /\ score g' = score g /\
   exists out1, get_human_move g "help" = (out1, Done (an_AdminMove false))).
Proof.
  intros g g'.
  apply (@rounds_count_chosen_moves g "help" 0 0 (fst (main_turn g "help" 0 0)) g').
  - exact default_catalog_ok.
  - reflexivity.
Defined.

(** ** The game built from a file *)

(** X14.  From a file with an odd number of non-empty rows, three at least,
    [Game.__init__] builds one move for each non-empty row, in the order of
    the file and numbered from 0, named by the first field of its row; empty
    rows are passed over; the score and the count of rounds start at zero,
    and the options shown are the names joined by a comma and a space. *)
Theorem game_built_from_rows (filename : string) (rows : list (list string)) :
  let named := filter (fun row => negb (length row =? 0)) rows in
  length named mod 2 = 1 -> 3 <= length named ->
  exists g,
    Game_init filename rows =
      ([("Starting game with rules from " ++ filename ++ ".")%string], Ok g) /\
    map move (move_objs g) = map (hd "") named /\
    map num (move_objs g) = seq 0 (length named) /\
    score g = mkScore 0 0 /\ rounds g = 0 /\
    move_names_str g = join ", " (map (hd "") named).
Proof.
  intros named Hodd H3.
  assert (Hread : read_moves rows = Ok named).
  { unfold read_moves. fold named.
    destruct (Nat.eqb_spec (length named mod 2) 0); [lia|].
    destruct (Nat.ltb_spec (length named) 3); [lia|reflexivity]. }
  destruct (@Game_init_ok filename _ _ Hread) as (g & Hrun & Hlen & Hobjs).
  exists g. split; [exact Hrun|].
  assert (Hboth : forall i m, nth_error (move_objs g) i = Some m ->
            nth_error (map (hd "") named) i = Some (move m) /\ num m = i).
  { intros i m Hm. destruct (Hobjs i m Hm) as (row & Hrow & Hmv).
    rewrite nth_error_map, Hrow.
    destruct row as [|name verbs];
      [exfalso; eapply (read_moves_rows_named _ Hread);
         [eapply nth_error_In; eassumption|reflexivity]|].
    destruct (Move_init_ok (map (hd "") named) i name verbs)
      as (m' & Hm' & Hmove & Hn & _).
    assert (E : m' = m) by congruence. subst m'. cbn. split; congruence. }
  split; [|split].
  - apply nth_error_ext. intros i. rewrite nth_error_map.
    destruct (nth_error (move_objs g) i) as [m|] eqn:Hm.
    + cbn. symmetry. now apply Hboth.
    + apply nth_error_None in Hm. rewrite Hlen in Hm. symmetry.
      apply nth_error_None. now rewrite length_map.
  - apply nth_error_ext. intros i. rewrite nth_error_map, nth_error_seq.
    destruct (nth_error (move_objs g) i) as [m|] eqn:Hm.
    + assert (Hi : i < length named).
      { rewrite <- Hlen. apply nth_error_Some. congruence. }
      destruct (Nat.ltb_spec i (length named)); [|lia].
      cbn. f_equal. now apply Hboth.
    + apply nth_error_None in Hm. rewrite Hlen in Hm.
      destruct (Nat.ltb_spec i (length named)); [lia|reflexivity].
  - unfold Game_init in Hrun. rewrite Hread in Hrun.
    rewrite (first_names _ (read_moves_rows_named _ Hread)) in Hrun.
    cbn [bind] in Hrun.
    destruct (mapM _ (enumerate named)) as [objs|]; cbn [bind] in Hrun;
      [|discriminate].
    injection Hrun as <-. repeat split.
Qed.

Lemma game_built_from_rows_witness :
  exists g,
    Game_init "rules.csv" [["Rock"; "blunts"]; []; ["Paper"]; ["Scissors"]] =
      (["Starting game with rules from rules.csv."], Ok g) /\
    map move (move_objs g) = ["Rock"; "Paper"; "Scissors"].
Proof.
  destruct (@game_built_from_rows "rules.csv"
              [["Rock"; "blunts"]; []; ["Paper"]; ["Scissors"]])
    as (g & H1 & H2 & _); [reflexivity|cbn; lia|].
  exists g. split; [exact H1|exact H2].
Defined.
